(** * local-ccm: the node reconciliation cycle

    A shallow embedding of the reconciliation logic of local-ccm
    (cmd/local-ccm/main.go, pkg/node/updater.go, pkg/detector/ip_detector.go)
    and the properties of the reconciliation cycle that follow from it.

    Go strings are [string]; [map[K]V] is a [gmap]; slices are lists; a
    function returning [error] or [(T, error)] returns a [result]; the calls
    to the Kubernetes API thread a [World] and record every request made.
    Logging, the context argument and the loop of [main] around [reconcile]
    are left out. *)

From stdpp Require Import base option list strings gmap fin_maps.

(** ** Data model (k8s.io/api/core/v1, the fields the code reads) *)

(** [type NodeAddressType string], with the constants of the API package. *)
Abbreviation NodeAddressType := string (only parsing).
Definition NodeHostName : NodeAddressType := "Hostname".
Definition NodeInternalIP : NodeAddressType := "InternalIP".
Definition NodeExternalIP : NodeAddressType := "ExternalIP".

Record NodeAddress := mkNodeAddress {
  Type_ : NodeAddressType;
  Address : string
}.

Record Taint := mkTaint {
  Key : string;
  Value : string;
  Effect : string;
  TimeAdded : option string
}.

Record NodeSpec := mkNodeSpec { Taints : list Taint }.
Record NodeStatus := mkNodeStatus { Addresses : list NodeAddress }.
Record Node := mkNode { Spec : NodeSpec; Status : NodeStatus }.

#[global] Instance NodeAddress_eq_dec : EqDecision NodeAddress.
Proof. solve_decision. Defined.
#[global] Instance Taint_eq_dec : EqDecision Taint.
Proof. solve_decision. Defined.

(** TaintKey is the taint key set by kubelet when --cloud-provider=external *)
Definition TaintKey : string := "node.cloudprovider.kubernetes.io/uninitialized".

(** ** Errors and results *)

(** [fmt.Errorf(msg)] and [fmt.Errorf(msg + ": %w", err)]. *)
Inductive error :=
| Errorf (msg : string)
| Wrapf (msg : string) (cause : error).

Inductive result (A : Type) :=
| Ok (a : A)
| Err (e : error).
Arguments Ok {A} a.
Arguments Err {A} e.

Definition is_ok {A} (r : result A) : bool :=
  match r with Ok _ => true | Err _ => false end.

#[global] Instance result_ret : MRet result := λ A a, Ok a.

#[global] Instance result_bind : MBind result := λ A B f r,
  match r with
  | Ok a => f a
  | Err e => Err e
  end.

(** [if err != nil { return ..., fmt.Errorf(msg + ": %w", err) }] *)
Definition wrap {A} (msg : string) (r : result A) : result A :=
  match r with
  | Ok a => Ok a
  | Err e => Err (Wrapf msg e)
  end.

(** ** Go maps *)

(** [m[k]] on a [map[string]string]: the zero value when the key is absent. *)
Definition index (m : gmap string string) (k : string) : string :=
  default "" (m !! k).

(** [for _, addr := range a { m[addr.Type] = addr.Address }] on a fresh map:
    a later entry of a type overwrites an earlier one. *)
Definition fillMap (m : gmap string string) (a : list NodeAddress) : gmap string string :=
  foldl (λ acc addr, <[Type_ addr := Address addr]> acc) m a.

Definition mapOf (a : list NodeAddress) : gmap string string := fillMap ∅ a.

(** The order in which [range] visits a Go map is unspecified. [rangeOrder]
    drives it by a seed: entry [i mod length] of what is left is visited
    next; when the seed runs out the rest is visited as stored.  Every seed
    gives a permutation and every permutation has a seed. *)
Fixpoint rangeOrder {A} (seed : list nat) (l : list A) : list A :=
  match seed with
  | [] => l
  | i :: seed' =>
      match l !! (i mod length l) with
      | Some x => x :: rangeOrder seed' (delete (i mod length l) l)
      | None => l
      end
  end.

(** [for addrType, addrValue := range addressMap { addresses = append(...) }] *)
Definition mapToSlice (seed : list nat) (m : gmap string string) : list NodeAddress :=
  (λ kv, mkNodeAddress kv.1 kv.2) <$> rangeOrder seed (map_to_list m).

(** ** addressesEqual (cmd/local-ccm/main.go) *)

(** addressesEqual checks if two address slices are equal *)
Definition addressesEqual (a b : list NodeAddress) : bool :=
  if negb (length a =? length b) then false
  else
    let aMap := mapOf a in
    let bMap := mapOf b in
    forallb (λ kv, bool_decide (index bMap kv.1 = kv.2)) (map_to_list aMap).

(** ** The Kubernetes API, as the code uses it *)

(** The JSON patch document the code marshals: a list of operations
    [{"op": ..., "path": ..., "value": ...}]. *)
Inductive PatchValue :=
| AddressesValue (l : list NodeAddress)
| TaintsValue (l : list Taint).

Record PatchOp := mkPatchOp {
  op : string;
  path : string;
  value : PatchValue
}.

(** A request sent to the API server: [Nodes().Get(ctx, name, ...)] or
    [Nodes().Patch(ctx, name, types.JSONPatchType, patchBytes, ..., subresources...)]. *)
Inductive ApiCall :=
| CallGet (name : string)
| CallPatch (name : string) (patch : list PatchOp) (subresources : list string).

(** The cluster: the stored node objects, and for each coming request whether
    the API answers it with an error (not found apart).  A request that is
    answered with an error changes nothing. *)
Record World := mkWorld {
  nodes : gmap string Node;
  faults : list (option error)
}.

(** A computation that talks to the API: its result, the cluster it leaves
    and the requests it made, in order. *)
Definition Api (A : Type) : Type := World → result A * World * list ApiCall.

#[global] Instance Api_ret : MRet Api := λ A a w, (Ok a, w, []).

#[global] Instance Api_bind : MBind Api := λ A B f m w,
  match m w with
  | (Ok a, w1, t1) => let '(r, w2, t2) := f a w1 in (r, w2, t1 ++ t2)
  | (Err e, w1, t1) => (Err e, w1, t1)
  end.

(** [if err != nil { return fmt.Errorf(msg + ": %w", err) }] *)
Definition orWrap {A} (msg : string) (m : Api A) : Api A := λ w,
  match m w with
  | (Err e, w1, t) => (Err (Wrapf msg e), w1, t)
  | (Ok a, w1, t) => (Ok a, w1, t)
  end.

(** A step that makes no request. *)
Definition pure {A} (r : result A) : Api A := λ w, (r, w, []).

Definition errNotFound (name : string) : error :=
  Errorf ("nodes " +:+ name +:+ " not found").

Definition setAddresses (l : list NodeAddress) (n : Node) : Node :=
  mkNode (Spec n) (mkNodeStatus l).

Definition setTaints (l : list Taint) (n : Node) : Node :=
  mkNode (mkNodeSpec l) (Status n).

(** Modelled from the spec: the Record API collaborator (the client-go
    client and the API server behind it, which are not part of this
    repository).  A patch is an atomic partial update: a [replace] of
    [/status/addresses] through the [status] subresource replaces the address
    list, a [replace] of [/spec/taints] on the node itself replaces the taint
    list, and nothing else of the object changes.  Any other document is
    rejected. *)
Definition applyOp (subresources : list string) (o : PatchOp) (n : Node) : result Node :=
  if bool_decide (op o = "replace") then
    match value o with
    | AddressesValue l =>
        if bool_decide (path o = "/status/addresses" ∧ subresources = ["status"])
        then Ok (setAddresses l n)
        else Err (Errorf "the server rejected our request")
    | TaintsValue l =>
        if bool_decide (path o = "/spec/taints" ∧ subresources = [])
        then Ok (setTaints l n)
        else Err (Errorf "the server rejected our request")
    end
  else Err (Errorf "the server rejected our request").

Fixpoint applyPatch (subresources : list string) (patch : list PatchOp) (n : Node) : result Node :=
  match patch with
  | [] => Ok n
  | o :: rest =>
      match applyOp subresources o n with
      | Ok n' => applyPatch subresources rest n'
      | Err e => Err e
      end
  end.

(** The cluster after one answered request. *)
Definition served (w : World) : World := mkWorld (nodes w) (tail (faults w)).

(** Modelled from the spec: one request to the Record API.  The next entry of
    [faults] decides whether the API fails the request (leaving the cluster as
    it is); otherwise [serve] answers it. *)
Definition request {A} (call : ApiCall)
    (serve : gmap string Node → result (A * gmap string Node)) : Api A := λ w,
  match head (faults w) with
  | Some (Some e) => (Err e, served w, [call])
  | _ =>
      match serve (nodes w) with
      | Ok (a, ns) => (Ok a, mkWorld ns (tail (faults w)), [call])
      | Err e => (Err e, served w, [call])
      end
  end.

(** Modelled from the spec: [client.CoreV1().Nodes().Get]. *)
Definition clientGet (name : string) : Api Node :=
  request (CallGet name) (λ ns,
    match ns !! name with
    | Some n => Ok (n, ns)
    | None => Err (errNotFound name)
    end).

(** Modelled from the spec: [client.CoreV1().Nodes().Patch] with
    [types.JSONPatchType]. *)
Definition clientPatch (name : string) (patch : list PatchOp)
    (subresources : list string) : Api Node :=
  request (CallPatch name patch subresources) (λ ns,
    match ns !! name with
    | Some n =>
        match applyPatch subresources patch n with
        | Ok n' => Ok (n', <[name := n']> ns)
        | Err e => Err e
        end
    | None => Err (errNotFound name)
    end).

(** ** pkg/node/updater.go *)

(** Updater handles updating node addresses and removing taints.  Its
    [client] is the [World] the computation runs in. *)
Record Updater := mkUpdater { nodeName : string }.

Definition NewUpdater (nodeName : string) : Updater := mkUpdater nodeName.

(** Create JSON patch for addresses *)
Definition addressPatch (addresses : list NodeAddress) : list PatchOp :=
  [mkPatchOp "replace" "/status/addresses" (AddressesValue addresses)].

(** Create JSON patch for taints *)
Definition taintPatch (taints : list Taint) : list PatchOp :=
  [mkPatchOp "replace" "/spec/taints" (TaintsValue taints)].

(** UpdateAddresses updates the node's status addresses.  ([json.Marshal] of
    the patch document cannot fail; the calls to [klog] are left out.) *)
Definition UpdateAddresses (u : Updater) (addresses : list NodeAddress) : Api unit :=
  let patch := addressPatch addresses in
  _ ← orWrap "failed to patch node addresses" (clientPatch (nodeName u) patch ["status"]);
  mret ().

(** The loop of RemoveTaint: the index of the first taint whose key is
    [TaintKey], [None] for the [-1] of the code. *)
Fixpoint taintIndexFrom (i : nat) (taints : list Taint) : option nat :=
  match taints with
  | [] => None
  | taint :: rest =>
      if bool_decide (Key taint = TaintKey) then Some i
      else taintIndexFrom (S i) rest
  end.

(** RemoveTaint removes the cloud provider taint from the node *)
Definition RemoveTaint (u : Updater) : Api unit :=
  node ← orWrap "failed to get node" (clientGet (nodeName u));
  match taintIndexFrom 0 (Taints (Spec node)) with
  | None => mret ()
  | Some taintIndex =>
      let newTaints :=
        take taintIndex (Taints (Spec node)) ++ drop (S taintIndex) (Taints (Spec node)) in
      let patch := taintPatch newTaints in
      _ ← orWrap "failed to remove taint" (clientPatch (nodeName u) patch []);
      mret ()
  end.

(** GetNode retrieves the current node object *)
Definition GetNode (u : Updater) : Api Node := clientGet (nodeName u).

(** ** pkg/detector/ip_detector.go *)

(** A route as [netlink.RouteGet] returns it; the code reads its source
    address only, [None] for a nil [Src]. *)
Record Route (IP : Type) := mkRoute { Src : option IP }.
Arguments mkRoute {IP} Src.
Arguments Src {IP} r.

(** The flags of the command that the cycle reads. *)
Record Config := mkConfig {
  internalIPTarget : string;
  externalIPTarget : string;
  removeTaint : bool
}.

Section Cycle.
(** The packages [net] and [netlink]: [net.ParseIP] ([None] for nil),
    [netlink.RouteGet] on the kernel's routing table, and [IP.String]. *)
Context {IP : Type}.
Variable ParseIP : string → option IP.
Variable RouteGet : IP → result (list (Route IP)).
Variable IPString : IP → string.

(** DetectIP detects the local IP address by using netlink to query the
    route to the target IP and extracting the source IP from the route *)
Definition DetectIP (targetIP : string) : result string :=
  if bool_decide (targetIP = "") then Err (Errorf "target IP is empty")
  else
    match ParseIP targetIP with
    | None => Err (Errorf ("invalid target IP address: " +:+ targetIP))
    | Some dstIP =>
        routes ← wrap ("failed to get route to " +:+ targetIP) (RouteGet dstIP);
        match routes with
        | [] => Err (Errorf ("no route found to " +:+ targetIP))
        | route :: _ =>
            match Src route with
            | None => Err (Errorf ("route to " +:+ targetIP +:+ " has no source IP"))
            | Some src => Ok (IPString src)
            end
        end
    end.

(** *** cmd/local-ccm/main.go: reconcile *)

Variable cfg : Config.

(** Detect Internal IP if configured; if internalIPTarget is not set,
    preserve existing InternalIP (e.g., set by kubelet) *)
Definition detectInternalIP (addressMap : gmap string string) : result (gmap string string) :=
  if bool_decide (internalIPTarget cfg ≠ "") then
    internalIP ← wrap "failed to detect internal IP" (DetectIP (internalIPTarget cfg));
    mret (<[NodeInternalIP := internalIP]> addressMap)
  else mret addressMap.

(** Always detect and update External IP *)
Definition detectExternalIP : result string :=
  wrap "failed to detect external IP" (DetectIP (externalIPTarget cfg)).

(** Check if external IP equals internal IP - if so, don't set external IP *)
Definition setExternalIP (addressMap : gmap string string)
    (detectedExternalIP : string) : gmap string string :=
  match addressMap !! NodeInternalIP with
  | Some internalIP =>
      if bool_decide (internalIP = detectedExternalIP)
      then delete NodeExternalIP addressMap
      else <[NodeExternalIP := detectedExternalIP]> addressMap
  | None => <[NodeExternalIP := detectedExternalIP]> addressMap
  end.

(** From "Start with existing addresses" to "Convert map back to slice":
    the address map the cycle ends with. *)
Definition computeAddressMap (current : list NodeAddress) : result (gmap string string) :=
  addressMap ← detectInternalIP (mapOf current);
  detectedExternalIP ← detectExternalIP;
  mret (setExternalIP addressMap detectedExternalIP).

Definition computeAddresses (seed : list nat) (current : list NodeAddress)
    : result (list NodeAddress) :=
  addressMap ← computeAddressMap current;
  mret (mapToSlice seed addressMap).

(** Check if addresses changed *)
Definition updateIfChanged (nodeUpdater : Updater)
    (current addresses : list NodeAddress) : Api unit :=
  if addressesEqual current addresses
  then mret ()
  else orWrap "failed to update addresses" (UpdateAddresses nodeUpdater addresses).

(** Remove taint if requested *)
Definition removeTaintStep (nodeUpdater : Updater) : Api unit :=
  if removeTaint cfg
  then orWrap "failed to remove taint" (RemoveTaint nodeUpdater)
  else mret ().

Definition reconcile (seed : list nat) (nodeUpdater : Updater) : Api unit :=
  currentNode ← orWrap "failed to get node" (GetNode nodeUpdater);
  addresses ← pure (computeAddresses seed (Addresses (Status currentNode)));
  _ ← updateIfChanged nodeUpdater (Addresses (Status currentNode)) addresses;
  removeTaintStep nodeUpdater.
End Cycle.

(** ** Reading a run *)

Definition outcome {A} (r : result A * World * list ApiCall) : result A := r.1.1.
Definition final {A} (r : result A * World * list ApiCall) : World := r.1.2.
Definition calls {A} (r : result A * World * list ApiCall) : list ApiCall := r.2.

(** The address lists and taint lists a list of requests writes. *)
Definition writtenAddresses (c : ApiCall) : list (list NodeAddress) :=
  match c with
  | CallPatch _ patch _ =>
      omap (λ o, match value o with AddressesValue l => Some l | _ => None end) patch
  | CallGet _ => []
  end.

Definition writtenTaints (c : ApiCall) : list (list Taint) :=
  match c with
  | CallPatch _ patch _ =>
      omap (λ o, match value o with TaintsValue l => Some l | _ => None end) patch
  | CallGet _ => []
  end.

Definition addressWrites (t : list ApiCall) : list (list NodeAddress) :=
  t ≫= writtenAddresses.

Definition taintWrites (t : list ApiCall) : list (list Taint) :=
  t ≫= writtenTaints.

(** A run continued after the requests [t]. *)
Definition extend {A} (t : list ApiCall) (r : result A * World * list ApiCall)
    : result A * World * list ApiCall :=
  (r.1.1, r.1.2, t ++ r.2).

(** ** A small network and cluster for the examples *)

(** Stand-ins for [net.ParseIP] and [netlink.RouteGet]: an address is a
    non-empty string of hexadecimal digits, dots and colons, kept as it is;
    the routing table lists the routes of each destination. *)
Definition exParseIP (s : string) : option string :=
  let ok c := existsb (Ascii.eqb c) (String.list_ascii_of_string "0123456789abcdefABCDEF.:") in
  if negb (bool_decide (s = "")) && forallb ok (String.list_ascii_of_string s)
  then Some s else None.

Definition exRouteGet (table : list (string * list (Route string))) (dst : string)
    : result (list (Route string)) :=
  match list_find (λ e, e.1 = dst) table with
  | Some (_, e) => Ok e.2
  | None => Err (Errorf "network is unreachable")
  end.

Definition exTable : list (string * list (Route string)) :=
  [("8.8.8.8", [mkRoute (Some "203.0.113.10")]);
   ("10.0.0.1", [mkRoute (Some "10.0.0.5")]);
   ("10.0.0.2", [mkRoute (Some "10.0.0.5"); mkRoute (Some "10.0.0.6")]);
   ("192.0.2.1", []);
   ("192.0.2.2", [mkRoute None])].

Definition exUpdater : Updater := NewUpdater "node1".

Definition exWorld (addresses : list NodeAddress) (taints : list Taint) : World :=
  mkWorld {[ "node1" := mkNode (mkNodeSpec taints) (mkNodeStatus addresses) ]} [].

Definition exUninitialized (effect : string) : Taint :=
  mkTaint TaintKey "true" effect None.

Definition exControlPlane : Taint :=
  mkTaint "node-role.kubernetes.io/control-plane" "" "NoSchedule" None.

(** Only the external target is set (the default configuration), and both. *)
Definition exExternalOnly : Config := mkConfig "" "8.8.8.8" true.
Definition exBoth : Config := mkConfig "10.0.0.1" "8.8.8.8" true.
Definition exSameRoute : Config := mkConfig "10.0.0.1" "10.0.0.2" true.
Definition exNoRoute : Config := mkConfig "10.0.0.1" "192.0.2.1" true.

(** The node of the end-to-end scenario; a dual-stack node as kubelet
    registers it, and one with a stale ExternalIP; a node with two InternalDNS
    names; a single-stack node as kubelet registers it; nodes with and without
    the cloud provider taint. *)
Definition exEndToEnd : World :=
  exWorld [mkNodeAddress "Hostname" "node1"] [exUninitialized "NoSchedule"].

Definition exDualStack : World :=
  exWorld [mkNodeAddress "InternalIP" "192.168.1.1";
           mkNodeAddress "InternalIP" "fd00::1";
           mkNodeAddress "Hostname" "node1"] [].

Definition exDualStackExternal : World :=
  exWorld [mkNodeAddress "InternalIP" "192.168.1.1";
           mkNodeAddress "InternalIP" "fd00::1";
           mkNodeAddress "ExternalIP" "198.51.100.7"] [].

Definition exTwoDNS : World :=
  exWorld [mkNodeAddress "Hostname" "node1";
           mkNodeAddress "InternalDNS" "node1.a.example";
           mkNodeAddress "InternalDNS" "node1.b.example"]
          [exUninitialized "NoSchedule"].

Definition exKubelet : World :=
  exWorld [mkNodeAddress "Hostname" "node1";
           mkNodeAddress "InternalIP" "192.168.1.1"] [].

Definition exTainted : World :=
  exWorld [mkNodeAddress "Hostname" "node1"]
          [exControlPlane; exUninitialized "NoSchedule"; exUninitialized "NoExecute"].

Definition exUntainted : World :=
  exWorld [mkNodeAddress "Hostname" "node1"] [exControlPlane].

(** The node an example cluster stores. *)
Definition exNode (w : World) : Node :=
  default (mkNode (mkNodeSpec []) (mkNodeStatus [])) (nodes w !! "node1").

Definition exCycle (cfg : Config) (seed : list nat) (w : World)
    : result unit * World * list ApiCall :=
  reconcile exParseIP (exRouteGet exTable) id cfg seed exUpdater w.

(** ** cmd/local-ccm/main.go: the command *)

(** The flags of the command, as [init] declares them: [--node-name],
    [--kubeconfig], the targets and [--remove-taint] (the [Config] that
    [reconcile] reads), [--run-once] and [--reconcile-interval] (a
    [time.Duration], in nanoseconds). *)
Record Flags := mkFlags {
  flagNodeName : string;
  kubeconfig : string;
  flagConfig : Config;
  runOnce : bool;
  reconcileInterval : Z
}.

(** The values [init] gives the flags when the command line sets none;
    [--node-name] defaults to the environment variable [NODE_NAME]. *)
Definition defaultFlags (NODE_NAME : string) : Flags :=
  mkFlags NODE_NAME "" (mkConfig "" "8.8.8.8" true) false (10 * 1000000000).

(** [err.Error()]: the message of an error, a wrapped one after its own text
    and ": ", as [%w] and [%v] print it. *)
Fixpoint errorString (e : error) : string :=
  match e with
  | Errorf msg => msg
  | Wrapf msg cause => msg +:+ ": " +:+ errorString cause
  end.

(** How the process ends: [os.Exit(code)], or [klog.Fatal] with its message. *)
Inductive Exit :=
| OsExit (code : Z)
| KlogFatal (msg : string).

(** What one pass of the loop meets: the order in which the address map is
    walked and the routing table of the kernel at that time. *)
Record Tick (IP : Type) := mkTick {
  rangeSeed : list nat;
  routeTable : IP → result (list (Route IP))
}.
Arguments mkTick {IP} rangeSeed routeTable.
Arguments rangeSeed {IP} t.
Arguments routeTable {IP} t.

(** The process as far as it has been watched: how it ended, if it did; the
    cluster; the requests sent; the result of each cycle, as the loop logs it
    ("Reconciliation failed" or "Reconciliation completed successfully"); and
    the durations slept. *)
Record Process := mkProcess {
  exit : option Exit;
  cluster : World;
  requests : list ApiCall;
  cycles : list (result unit);
  sleeps : list Z
}.

Section Command.
Context {IP RestConfig Clientset : Type}.
Variable ParseIP : string → option IP.
Variable IPString : IP → string.
(** [clientcmd.BuildConfigFromFlags], [rest.InClusterConfig] and
    [kubernetes.NewForConfig]. *)
Variable BuildConfigFromFlags : string → string → result RestConfig.
Variable InClusterConfig : result RestConfig.
Variable NewForConfig : RestConfig → result Clientset.

Definition createKubernetesClient (kubeconfigPath : string) : result Clientset :=
  restConfig ← wrap "failed to create rest config"
                 (if bool_decide (kubeconfigPath ≠ "")
                  then BuildConfigFromFlags "" kubeconfigPath
                  else InClusterConfig);
  wrap "failed to create kubernetes client" (NewForConfig restConfig).

Variable flags : Flags.

(** Main reconciliation loop: one pass per tick; it is watched for as many
    passes as there are ticks. *)
Fixpoint reconcileLoop (ticks : list (Tick IP)) (nodeUpdater : Updater) (w : World)
    : Process :=
  match ticks with
  | [] => mkProcess None w [] [] []
  | tick :: rest =>
      let '(err, w1, t1) :=
        reconcile ParseIP (routeTable tick) IPString (flagConfig flags)
          (rangeSeed tick) nodeUpdater w in
      if runOnce flags then
        mkProcess (Some (OsExit (if is_ok err then 0 else 1))) w1 t1 [err] []
      else
        let p := reconcileLoop rest nodeUpdater w1 in
        mkProcess (exit p) (cluster p) (t1 ++ requests p) (err :: cycles p)
          (reconcileInterval flags :: sleeps p)
  end.

Definition main (ticks : list (Tick IP)) (w : World) : Process :=
  if bool_decide (flagNodeName flags = "") then
    mkProcess
      (Some (KlogFatal "--node-name or NODE_NAME environment variable must be set"))
      w [] [] []
  else
    match createKubernetesClient (kubeconfig flags) with
    | Err e =>
        mkProcess
          (Some (KlogFatal ("Failed to create Kubernetes client: " +:+ errorString e)))
          w [] [] []
    | Ok _ => reconcileLoop ticks (NewUpdater (flagNodeName flags)) w
    end.
End Command.

(** ** Reading a node *)

(** The taints RemoveTaint leaves: all of them when none has the cloud
    provider key, else all but the first that has it. *)
Definition withoutFirstTaint (taints : list Taint) : list Taint :=
  match taintIndexFrom 0 taints with
  | None => taints
  | Some taintIndex => take taintIndex taints ++ drop (S taintIndex) taints
  end.

(** How many taints have the cloud provider key. *)
Definition cloudTaints (taints : list Taint) : nat :=
  length (filter (λ t, Key t = TaintKey) taints).

(** The taints and the addresses the cluster stores for a node. *)
Definition taintsOf (w : World) (name : string) : option (list Taint) :=
  (λ n, Taints (Spec n)) <$> nodes w !! name.

Definition addressesOf (w : World) (name : string) : option (list NodeAddress) :=
  (λ n, Addresses (Status n)) <$> nodes w !! name.

(** The node a request names. *)
Definition callName (c : ApiCall) : string :=
  match c with
  | CallGet name => name
  | CallPatch name _ _ => name
  end.

(** What the cycles keep of a cluster, from [w] to [w']: the other nodes,
    the absence of the node, and on the node the taints with another key, in
    their order, and the map entries of the address types other than
    InternalIP and ExternalIP. *)
Definition preserved (name : string) (w w' : World) : Prop :=
  (∀ other, other ≠ name → nodes w' !! other = nodes w !! other)
  ∧ (nodes w !! name = None → nodes w' !! name = None)
  ∧ ∀ n, nodes w !! name = Some n →
      ∃ n', nodes w' !! name = Some n'
        ∧ filter (λ t, Key t ≠ TaintKey) (Taints (Spec n'))
          = filter (λ t, Key t ≠ TaintKey) (Taints (Spec n))
        ∧ ∀ k, k ≠ NodeInternalIP → k ≠ NodeExternalIP →
            mapOf (Addresses (Status n')) !! k = mapOf (Addresses (Status n)) !! k.

(** A node is settled for a routing table when the cycle computes an address
    map from its addresses and addressesEqual accepts every list of that
    map. *)
Definition settled {IP} (ParseIP : string → option IP)
    (RouteGet : IP → result (list (Route IP))) (IPString : IP → string)
    (cfg : Config) (name : string) (w : World) : Prop :=
  ∀ n, nodes w !! name = Some n →
    ∃ m, computeAddressMap ParseIP RouteGet IPString cfg (Addresses (Status n)) = Ok m
      ∧ ∀ seed, addressesEqual (Addresses (Status n)) (mapToSlice seed m) = true.

(** ** Stand-ins for the client configuration, for the examples *)
Definition exBuildConfig (masterUrl kubeconfigPath : string) : result string :=
  if bool_decide (kubeconfigPath = "/missing")
  then Err (Errorf "stat /missing: no such file or directory")
  else Ok kubeconfigPath.

Definition exInCluster : result string := Ok "in-cluster".

Definition exNewForConfig (c : string) : result string := Ok c.

Definition exTick : Tick string := mkTick [] (exRouteGet exTable).

Definition exMain (flags : Flags) (ticks : list (Tick string)) (w : World) : Process :=
  main exParseIP id exBuildConfig exInCluster exNewForConfig flags ticks w.

(** An internal target without a route; the taint removal switched off. *)
Definition exInternalNoRoute : Config := mkConfig "192.0.2.1" "8.8.8.8" true.
Definition exKeepTaint : Config := mkConfig "" "8.8.8.8" false.

(** A cluster without the node, and one whose API refuses the second
    request. *)
Definition exNoNode : World := mkWorld ∅ [].

Definition exRefused : World :=
  mkWorld (nodes exEndToEnd) [None; Some (Errorf "the server is currently unable to handle the request")].

(** A later routing table: another route has appeared, the targets resolve
    as before. *)
Definition exTableLater : list (string * list (Route string)) :=
  ("172.16.0.1", [mkRoute (Some "172.16.0.9")]) :: exTable.

Definition exTickLater : Tick string := mkTick [1; 0] (exRouteGet exTableLater).

Definition exLoop (flags : Flags) (ticks : list (Tick string)) (w : World) : Process :=
  reconcileLoop exParseIP id flags ticks exUpdater w.

(** ** charts/local-ccm/templates/_helpers.tpl *)

Module Helm.
(** The template functions the helpers use, on Go strings (sequences of
    bytes): [trunc c] keeps the first [c] bytes; [trimSuffix] is
    [strings.TrimSuffix], which takes the suffix off once; [contains] is
    [strings.Contains], with the substring first; [default d v] is [d] when
    [v] is empty or unset; [replace "+" "_"] maps that one byte. *)
Fixpoint trunc (c : nat) (s : string) : string :=
  match c, s with
  | S c', String a s' => String a (trunc c' s')
  | _, _ => ""
  end.

Fixpoint trimSuffix (suffix s : string) : string :=
  if String.eqb s suffix then ""
  else
    match s with
    | "" => ""
    | String a s' => String a (trimSuffix suffix s')
    end.

Fixpoint contains (substr str : string) : bool :=
  String.prefix substr str
  || match str with
     | "" => false
     | String _ str' => contains substr str'
     end.

Definition default (d v : string) : string :=
  if String.eqb v "" then d else v.

Definition byteOf (s : string) : Ascii.ascii :=
  match s with
  | String a _ => a
  | "" => Ascii.zero
  end.

Fixpoint replacePlus (s : string) : string :=
  match s with
  | "" => ""
  | String a s' =>
      String (if Ascii.eqb a (byteOf "+") then byteOf "_" else a) (replacePlus s')
  end.

(** [printf "%s-%s"] *)
Definition dashed (a b : string) : string := a +:+ "-" +:+ b.

(** What the helpers read of [.Chart], [.Release] and [.Values]; an unset
    value is the empty string. *)
Record Context := mkContext {
  ChartName : string;
  ChartVersion : string;
  ReleaseName : string;
  nameOverride : string;
  fullnameOverride : string;
  serviceAccountCreate : bool;
  serviceAccountName_ : string
}.

(** Expand the name of the chart. *)
Definition name (c : Context) : string :=
  trimSuffix "-" (trunc 63 (default (ChartName c) (nameOverride c))).

(** Create a default fully qualified app name. *)
Definition fullname (c : Context) : string :=
  if negb (String.eqb (fullnameOverride c) "") then
    trimSuffix "-" (trunc 63 (fullnameOverride c))
  else
    let name := default (ChartName c) (nameOverride c) in
    if contains name (ReleaseName c) then
      trimSuffix "-" (trunc 63 (ReleaseName c))
    else
      trimSuffix "-" (trunc 63 (dashed (ReleaseName c) name)).

(** Create chart name and version as used by the chart label. *)
Definition chart (c : Context) : string :=
  trimSuffix "-" (trunc 63 (replacePlus (dashed (ChartName c) (ChartVersion c)))).

(** Create the name of the service account to use *)
Definition serviceAccountName (c : Context) : string :=
  if serviceAccountCreate c
  then default (fullname c) (serviceAccountName_ c)
  else default "default" (serviceAccountName_ c).
End Helm.

(** Decidable facts about concrete inputs, by evaluation. *)
Ltac by_compute := apply (bool_decide_unpack _); vm_compute; exact I.

(** * Properties *)

(** ** The order of [range] *)

Lemma rangeOrder_Permutation {A} (seed : list nat) (l : list A) :
  rangeOrder seed l ≡ₚ l.
Proof.
  revert l. induction seed as [|i seed IH]; intros l; simpl; [done|].
  destruct (l !! (i mod length l)) as [x|] eqn:Hx; [|done].
  rewrite IH. symmetry. by apply delete_Permutation.
Qed.

Lemma rangeOrder_complete {A} (l l' : list A) :
  l' ≡ₚ l → ∃ seed, rangeOrder seed l = l'.
Proof.
  revert l. induction l' as [|x l' IH]; intros l Hp.
  - apply Permutation_nil_l in Hp as ->. by exists [].
  - assert (x ∈ l) as Hx by (rewrite <- Hp; left).
    apply list_elem_of_lookup in Hx as [i Hi].
    assert (i < length l) as Hlt by (by eapply lookup_lt_Some).
    destruct (IH (delete i l)) as [seed Hseed].
    { apply (Permutation_cons_inv (a := x)). rewrite Hp. by apply delete_Permutation. }
    exists (i :: seed). simpl. rewrite Nat.mod_small by done.
    by rewrite Hi, Hseed.
Qed.

(** ** Go maps built from slices *)

Lemma fillMap_snoc m a x :
  fillMap m (a ++ [x]) = <[Type_ x := Address x]> (fillMap m a).
Proof. unfold fillMap. by rewrite foldl_snoc. Qed.

Lemma mapOf_snoc a x :
  mapOf (a ++ [x]) = <[Type_ x := Address x]> (mapOf a).
Proof. apply fillMap_snoc. Qed.

Lemma mapOf_lookup_Some a k v :
  mapOf a !! k = Some v → mkNodeAddress k v ∈ a.
Proof.
  induction a as [|x a IH] using rev_ind; [done|].
  rewrite mapOf_snoc, lookup_insert, elem_of_app. case_decide as Hk.
  - intros [= <-]. subst k. right. destruct x. by apply list_elem_of_singleton.
  - intros Hin. left. by apply IH.
Qed.

Lemma mapOf_lookup_None a k :
  mapOf a !! k = None ↔ k ∉ Type_ <$> a.
Proof.
  induction a as [|x a IH] using rev_ind.
  - split; [intros _; apply not_elem_of_nil|done].
  - rewrite mapOf_snoc, lookup_insert, fmap_app, not_elem_of_app.
    simpl. rewrite list_elem_of_singleton. case_decide as Hk.
    + split; [done|]. intros [_ Hne]. by destruct Hne.
    + rewrite IH. split; [|tauto]. intros Hn. split; [done|]. by intros ->.
Qed.

(** The last entry of a type is the one the map keeps. *)
Lemma mapOf_last pre x post :
  Type_ x ∉ Type_ <$> post →
  mapOf (pre ++ x :: post) !! Type_ x = Some (Address x).
Proof.
  induction post as [|y post IH] using rev_ind; intros Hn.
  - by rewrite mapOf_snoc, lookup_insert_eq.
  - rewrite fmap_app in Hn. apply not_elem_of_app in Hn as [Hpost Hy].
    simpl in Hy. rewrite list_elem_of_singleton in Hy.
    replace (pre ++ x :: post ++ [y]) with ((pre ++ x :: post) ++ [y])
      by (by rewrite <- app_assoc).
    rewrite mapOf_snoc, lookup_insert_ne by (by intros ?).
    by apply IH.
Qed.

Lemma mapOf_lookup_NoDup a k v :
  NoDup (Type_ <$> a) →
  mkNodeAddress k v ∈ a ↔ mapOf a !! k = Some v.
Proof.
  intros Hnd. split; [|apply mapOf_lookup_Some].
  intros Hin. apply list_elem_of_split in Hin as (pre & post & ->).
  apply (mapOf_last pre (mkNodeAddress k v) post).
  rewrite fmap_app, fmap_cons in Hnd.
  apply NoDup_app in Hnd as (_ & _ & Hnd). by apply NoDup_cons in Hnd as [? _].
Qed.

Lemma size_mapOf_le a : size (mapOf a) ≤ length a.
Proof.
  induction a as [|x a IH] using rev_ind; [done|].
  rewrite mapOf_snoc, length_app. simpl.
  destruct (mapOf a !! Type_ x) eqn:Hx.
  - rewrite map_size_insert_Some by done. lia.
  - rewrite map_size_insert_None by done. lia.
Qed.

Lemma size_mapOf_NoDup a :
  NoDup (Type_ <$> a) → size (mapOf a) = length a.
Proof.
  induction a as [|x a IH] using rev_ind; [done|].
  rewrite fmap_app. intros (Ha & Hx & _)%NoDup_app.
  rewrite mapOf_snoc, length_app. simpl.
  rewrite map_size_insert_None, IH; [lia|done|].
  apply mapOf_lookup_None. intros Hin. apply (Hx _ Hin). by left.
Qed.

(** ** Maps turned back into slices *)

Lemma elem_of_mapToSlice seed m addr :
  addr ∈ mapToSlice seed m ↔ m !! Type_ addr = Some (Address addr).
Proof.
  unfold mapToSlice. rewrite list_elem_of_fmap. split.
  - intros ([k v] & -> & Hin). simpl.
    rewrite rangeOrder_Permutation in Hin. by apply elem_of_map_to_list.
  - intros Hm. exists (Type_ addr, Address addr). split; [by destruct addr|].
    rewrite rangeOrder_Permutation. by apply elem_of_map_to_list.
Qed.

Lemma mapToSlice_types seed m :
  Type_ <$> mapToSlice seed m = (rangeOrder seed (map_to_list m)).*1.
Proof. unfold mapToSlice. rewrite <- list_fmap_compose. done. Qed.

Lemma NoDup_mapToSlice_types seed m : NoDup (Type_ <$> mapToSlice seed m).
Proof.
  rewrite mapToSlice_types, rangeOrder_Permutation.
  apply NoDup_fst_map_to_list.
Qed.

Lemma length_mapToSlice seed m : length (mapToSlice seed m) = size m.
Proof.
  unfold mapToSlice.
  by rewrite length_fmap, rangeOrder_Permutation, length_map_to_list.
Qed.

Lemma mapOf_mapToSlice seed m : mapOf (mapToSlice seed m) = m.
Proof.
  apply map_eq. intros k. destruct (m !! k) as [v|] eqn:Hk.
  - apply mapOf_lookup_NoDup; [apply NoDup_mapToSlice_types|].
    by apply elem_of_mapToSlice.
  - apply mapOf_lookup_None. intros (addr & -> & Hin)%list_elem_of_fmap.
    apply elem_of_mapToSlice in Hin. congruence.
Qed.

(** ** What addressesEqual computes *)

Lemma addressesEqual_spec a b :
  addressesEqual a b = true ↔
  length a = length b ∧ ∀ k v, mapOf a !! k = Some v → index (mapOf b) k = v.
Proof.
  unfold addressesEqual.
  destruct (length a =? length b) eqn:Hlen; simpl.
  - apply Nat.eqb_eq in Hlen.
    rewrite <- Is_true_true, forallb_True, Forall_forall. split.
    + intros Hall. split; [done|]. intros k v Hkv.
      apply elem_of_map_to_list in Hkv. apply Hall in Hkv.
      by apply bool_decide_unpack in Hkv.
    + intros [_ Hall] [k v] Hkv. apply bool_decide_pack. simpl.
      by apply Hall, elem_of_map_to_list.
  - apply Nat.eqb_neq in Hlen. split; [done|]. by intros [? _].
Qed.

(** On a list [a] without a repeated type and without an empty address,
    equal lists have the same entries. *)
Lemma addressesEqual_sound a b :
  NoDup (Type_ <$> a) → Forall (λ x, Address x ≠ "") a →
  addressesEqual a b = true → a ≡ₚ b.
Proof.
  intros Hnd Hne [Hlen Hall]%addressesEqual_spec.
  apply submseteq_length_Permutation; [|lia].
  apply NoDup_submseteq; [by eapply NoDup_fmap_1|].
  intros [k v] Hin.
  assert (v ≠ "") as Hv by (by eapply Forall_forall in Hne; [|done]).
  apply mapOf_lookup_NoDup in Hin; [|done].
  apply Hall in Hin. unfold index in Hin.
  apply mapOf_lookup_Some.
  destruct (mapOf b !! k) as [v'|]; simpl in Hin; congruence.
Qed.

Lemma addressesEqual_complete a b :
  NoDup (Type_ <$> a) → NoDup (Type_ <$> b) →
  (∀ x, x ∈ a ↔ x ∈ b) → addressesEqual a b = true.
Proof.
  intros Ha Hb Hab. apply addressesEqual_spec. split.
  - apply Permutation_length, NoDup_Permutation; [by eapply NoDup_fmap_1..|done].
  - intros k v Hkv. apply mapOf_lookup_Some, Hab in Hkv.
    apply mapOf_lookup_NoDup in Hkv; [|done]. unfold index. by rewrite Hkv.
Qed.

(** The comparison looks at [b] through its map only. *)
Lemma addressesEqual_mapOf a b b' :
  length b = length b' → mapOf b = mapOf b' →
  addressesEqual a b = addressesEqual a b'.
Proof.
  intros Hlen Hmap. apply eq_true_iff_eq.
  rewrite !addressesEqual_spec, Hlen, Hmap. done.
Qed.

Lemma addressesEqual_mapToSlice seed m :
  addressesEqual (mapToSlice seed m) (mapToSlice seed m) = true.
Proof.
  apply addressesEqual_complete; [apply NoDup_mapToSlice_types..|done].
Qed.

(** ** Runs of the API operations *)

Lemma GetNode_run u w :
  ∃ r, GetNode u w = (r, served w, [CallGet (nodeName u)])
       ∧ ∀ n, r = Ok n → nodes w !! nodeName u = Some n.
Proof.
  unfold GetNode, clientGet, request, served.
  destruct (head (faults w)) as [[e|]|];
    [eexists; split; [done|done]|..];
    (destruct (nodes w !! nodeName u) as [n|];
       eexists; (split; [done|]); intros ? [= <-]; done).
Qed.

Lemma clientPatch_run name patch subs w :
  ∃ r w', clientPatch name patch subs w = (r, w', [CallPatch name patch subs])
    ∧ faults w' = tail (faults w)
    ∧ ((∃ e, r = Err e) ∧ nodes w' = nodes w
       ∨ ∃ n n', r = Ok n' ∧ nodes w !! name = Some n
           ∧ applyPatch subs patch n = Ok n'
           ∧ nodes w' = <[name := n']> (nodes w)).
Proof.
  unfold clientPatch, request.
  destruct (head (faults w)) as [[e|]|];
    [do 2 eexists; split; [done|]; split; [done|]; left; eauto|..];
    (destruct (nodes w !! name) as [n|] eqn:Hn;
      [destruct (applyPatch subs patch n) as [n'|e'] eqn:Hp|];
      do 2 eexists; (split; [done|]); (split; [done|]);
      first [ by (left; eauto) | right; eauto 10 ]).
Qed.

Lemma UpdateAddresses_run u addresses w :
  ∃ r w', UpdateAddresses u addresses w
            = (r, w', [CallPatch (nodeName u) (addressPatch addresses) ["status"]])
    ∧ faults w' = tail (faults w)
    ∧ ((∃ e, r = Err e) ∧ nodes w' = nodes w
       ∨ ∃ n, r = Ok () ∧ nodes w !! nodeName u = Some n
           ∧ nodes w' = <[nodeName u := setAddresses addresses n]> (nodes w)).
Proof.
  destruct (clientPatch_run (nodeName u) (addressPatch addresses) ["status"] w)
    as (r & w' & Hrun & Hf & Hcases).
  unfold UpdateAddresses, mbind, Api_bind, orWrap.
  rewrite Hrun.
  destruct Hcases as [[[e ->] Hn]|(n & n' & -> & Hn & Hp & Hn')]; simpl.
  - do 2 eexists. split; [done|]. split; [done|]. left. eauto.
  - do 2 eexists. split; [done|]. split; [done|]. right. exists n.
    split; [done|]. split; [done|]. vm_compute in Hp. by injection Hp as <-.
Qed.

(** ** The loop that looks for the taint *)

Lemma taintIndexFrom_None i taints :
  taintIndexFrom i taints = None ↔ Forall (λ t, Key t ≠ TaintKey) taints.
Proof.
  revert i. induction taints as [|t taints IH]; intros i; simpl.
  - split; [constructor|done].
  - case_bool_decide as Hk.
    + split; [done|]. by intros [? _]%Forall_cons.
    + rewrite IH, Forall_cons. tauto.
Qed.

Lemma taintIndexFrom_Some i taints j :
  taintIndexFrom i taints = Some j →
  ∃ pre t post, taints = pre ++ t :: post ∧ j = i + length pre
    ∧ Key t = TaintKey ∧ Forall (λ t, Key t ≠ TaintKey) pre.
Proof.
  revert i. induction taints as [|t taints IH]; intros i; simpl; [done|].
  case_bool_decide as Hk.
  - intros [= <-]. exists [], t, taints. simpl. split_and!; [done|lia|done|constructor].
  - intros (pre & t' & post & -> & -> & Ht' & Hpre)%IH.
    exists (t :: pre), t', post. simpl. split_and!; [done|lia|done|by constructor].
Qed.

Lemma taintIndexFrom_first pre t post :
  Forall (λ t, Key t ≠ TaintKey) pre → Key t = TaintKey →
  taintIndexFrom 0 (pre ++ t :: post) = Some (length pre).
Proof.
  intros Hpre Ht. destruct (taintIndexFrom 0 (pre ++ t :: post)) as [j|] eqn:Hj.
  - apply taintIndexFrom_Some in Hj as (pre' & t' & post' & Heq & -> & Ht' & Hpre').
    f_equal. simpl.
    destruct (decide (length pre' = length pre)) as [|Hne]; [done|exfalso].
    destruct (decide (length pre' < length pre)).
    + assert ((pre ++ t :: post) !! length pre' = Some t') as Hl
        by (by rewrite Heq, list_lookup_middle).
      rewrite lookup_app_l in Hl by done.
      apply list_elem_of_lookup_2 in Hl.
      by eapply Forall_forall in Hpre; [|done].
    + assert ((pre' ++ t' :: post') !! length pre = Some t) as Hl
        by (by rewrite <- Heq, list_lookup_middle).
      rewrite lookup_app_l in Hl by lia.
      apply list_elem_of_lookup_2 in Hl.
      by eapply Forall_forall in Hpre'; [|done].
  - apply taintIndexFrom_None in Hj.
    apply Forall_app in Hj as [_ [Hj _]%Forall_cons]. done.
Qed.

Lemma removed_middle {A} (pre : list A) x post :
  take (length pre) (pre ++ x :: post) ++ drop (S (length pre)) (pre ++ x :: post)
  = pre ++ post.
Proof.
  rewrite take_app_length.
  replace (pre ++ x :: post) with ((pre ++ [x]) ++ post) by (by rewrite <- app_assoc).
  rewrite drop_app_length'; [done|]. rewrite length_app. simpl. lia.
Qed.

Lemma RemoveTaint_unfold u w :
  RemoveTaint u w =
  match GetNode u w with
  | (Err e, w1, t) => (Err (Wrapf "failed to get node" e), w1, t)
  | (Ok node, w1, t) =>
      match taintIndexFrom 0 (Taints (Spec node)) with
      | None => (Ok (), w1, t)
      | Some i =>
          let newTaints :=
            take i (Taints (Spec node)) ++ drop (S i) (Taints (Spec node)) in
          match clientPatch (nodeName u) (taintPatch newTaints) [] w1 with
          | (Err e, w2, t2) => (Err (Wrapf "failed to remove taint" e), w2, t ++ t2)
          | (Ok _, w2, t2) => (Ok (), w2, t ++ t2)
          end
      end
  end.
Proof.
  unfold RemoveTaint, GetNode, mbind, Api_bind, orWrap, mret, Api_ret.
  destruct (clientGet (nodeName u) w) as [[[node|e] w1] t]; [|done].
  destruct (taintIndexFrom 0 (Taints (Spec node))) as [i|].
  - match goal with |- context [clientPatch ?a ?b ?c ?d] =>
      destruct (clientPatch a b c d) as [[[?|?] ?] ?] end; simpl;
      by rewrite ?app_nil_r.
  - by rewrite app_nil_r.
Qed.

(** What one call of RemoveTaint does, by what the node holds. *)
Lemma RemoveTaint_absent u w n :
  outcome (GetNode u w) = Ok n →
  Forall (λ t, Key t ≠ TaintKey) (Taints (Spec n)) →
  RemoveTaint u w = (Ok (), served w, [CallGet (nodeName u)]).
Proof.
  intros Hget Habs. rewrite RemoveTaint_unfold.
  destruct (GetNode_run u w) as (r & Hrun & _). rewrite Hrun in Hget |- *.
  unfold outcome in Hget. simpl in Hget. subst r. by apply (taintIndexFrom_None 0) in Habs as ->.
Qed.

Lemma RemoveTaint_present u w n pre t post :
  outcome (GetNode u w) = Ok n →
  Taints (Spec n) = pre ++ t :: post →
  Forall (λ t, Key t ≠ TaintKey) pre → Key t = TaintKey →
  ∃ r w', RemoveTaint u w
      = (r, w', [CallGet (nodeName u);
                 CallPatch (nodeName u) (taintPatch (pre ++ post)) []])
    ∧ faults w' = tail (tail (faults w))
    ∧ ((∃ e, r = Err e) ∧ nodes w' = nodes w
       ∨ r = Ok ()
         ∧ nodes w' = <[nodeName u := setTaints (pre ++ post) n]> (nodes w)).
Proof.
  intros Hget Hts Hpre Ht. rewrite RemoveTaint_unfold.
  destruct (GetNode_run u w) as (r & Hrun & Hn). rewrite Hrun in Hget |- *.
  unfold outcome in Hget. simpl in Hget. subst r. specialize (Hn n eq_refl).
  rewrite Hts, taintIndexFrom_first by done. simpl. rewrite removed_middle.
  destruct (clientPatch_run (nodeName u) (taintPatch (pre ++ post)) [] (served w))
    as (r & w' & -> & Hf & Hcases).
  destruct Hcases as [[[e ->] Hnodes]|(n0 & n' & -> & Hn0 & Hp & Hnodes)].
  - do 2 eexists. split; [done|]. split; [done|]. left. eauto.
  - do 2 eexists. split; [done|]. split; [done|]. right. split; [done|].
    simpl in Hn0. rewrite Hn in Hn0. injection Hn0 as <-.
    vm_compute in Hp. by injection Hp as <-.
Qed.

Lemma addressWrites_app t1 t2 :
  addressWrites (t1 ++ t2) = addressWrites t1 ++ addressWrites t2.
Proof. unfold addressWrites. apply bind_app. Qed.

Lemma taintWrites_app t1 t2 :
  taintWrites (t1 ++ t2) = taintWrites t1 ++ taintWrites t2.
Proof. unfold taintWrites. apply bind_app. Qed.

(** ** The cycle *)

Section CycleProperties.
Context {IP : Type}.
Variable ParseIP : string → option IP.
Variable RouteGet : IP → result (list (Route IP)).
Variable IPString : IP → string.
Variable cfg : Config.

Local Abbreviation detect := (DetectIP ParseIP RouteGet IPString).
Local Abbreviation addressMapOf := (computeAddressMap ParseIP RouteGet IPString cfg).
Local Abbreviation compute := (computeAddresses ParseIP RouteGet IPString cfg).
Local Abbreviation cycle := (reconcile ParseIP RouteGet IPString cfg).
Local Abbreviation internalStep := (detectInternalIP ParseIP RouteGet IPString cfg).
Local Abbreviation externalIP := (detectExternalIP ParseIP RouteGet IPString cfg).

Lemma setExternalIP_lookup_ne m E k :
  k ≠ NodeExternalIP → setExternalIP m E !! k = m !! k.
Proof.
  intros Hk. unfold setExternalIP.
  destruct (m !! NodeInternalIP) as [i|]; [case_bool_decide|];
    by rewrite ?lookup_delete_ne, ?lookup_insert_ne by done.
Qed.

Lemma setExternalIP_lookup m E :
  setExternalIP m E !! NodeExternalIP
  = if bool_decide (m !! NodeInternalIP = Some E) then None else Some E.
Proof.
  unfold setExternalIP. destruct (m !! NodeInternalIP) as [i|] eqn:Hi.
  - case_bool_decide as Hie.
    + subst i. rewrite bool_decide_true by done. apply lookup_delete_eq.
    + rewrite bool_decide_false by congruence. apply lookup_insert_eq.
  - rewrite bool_decide_false by done. apply lookup_insert_eq.
Qed.

Lemma setExternalIP_idemp m E :
  setExternalIP (setExternalIP m E) E = setExternalIP m E.
Proof.
  assert (setExternalIP m E !! NodeInternalIP = m !! NodeInternalIP) as Hi
    by (by apply setExternalIP_lookup_ne).
  unfold setExternalIP at 1. rewrite Hi. unfold setExternalIP.
  destruct (m !! NodeInternalIP) as [i|]; [case_bool_decide|].
  - apply map_eq. intros k. destruct (decide (k = NodeExternalIP)) as [->|].
    + by rewrite !lookup_delete_eq.
    + by rewrite !lookup_delete_ne.
  - apply insert_insert_eq.
  - apply insert_insert_eq.
Qed.

Lemma internalStep_Ok m m' :
  internalStep m = Ok m' →
  (internalIPTarget cfg = "" ∧ m' = m)
  ∨ (internalIPTarget cfg ≠ ""
     ∧ ∃ i, detect (internalIPTarget cfg) = Ok i ∧ m' = <[NodeInternalIP := i]> m).
Proof.
  unfold detectInternalIP. case_bool_decide as Ht.
  - destruct (detect (internalIPTarget cfg)) as [i|e]; simpl; [|done].
    intros [= <-]. right. eauto.
  - intros [= <-]. left. split; [|done]. by destruct (decide (internalIPTarget cfg = "")).
Qed.

Lemma addressMapOf_Ok current m :
  addressMapOf current = Ok m →
  ∃ m1 E, internalStep (mapOf current) = Ok m1
    ∧ detect (externalIPTarget cfg) = Ok E ∧ m = setExternalIP m1 E.
Proof.
  unfold computeAddressMap, detectExternalIP.
  destruct (internalStep (mapOf current)) as [m1|e]; simpl; [|done].
  destruct (detect (externalIPTarget cfg)) as [E|e]; simpl; [|done].
  intros [= <-]. eauto.
Qed.

(** The map a cycle ends with is a fixed point of the next cycle. *)
Lemma addressMapOf_stable current m seed :
  addressMapOf current = Ok m →
  addressMapOf (mapToSlice seed m) = Ok m.
Proof.
  intros (m1 & E & Hint & Hext & ->)%addressMapOf_Ok.
  unfold computeAddressMap, detectExternalIP. rewrite mapOf_mapToSlice, Hext.
  assert (internalStep (setExternalIP m1 E) = Ok (setExternalIP m1 E)) as ->.
  { apply internalStep_Ok in Hint as [[Ht ->]|(Ht & i & Hi & ->)];
      unfold detectInternalIP.
    - by rewrite bool_decide_false by (by intros ?).
    - rewrite bool_decide_true, Hi by done. simpl. unfold mret, result_ret.
      f_equal. apply insert_id.
      rewrite setExternalIP_lookup_ne by done. apply lookup_insert_eq. }
  simpl. unfold mret, result_ret. by rewrite setExternalIP_idemp.
Qed.

Lemma compute_Ok seed current addresses :
  compute seed current = Ok addresses →
  ∃ m, addressMapOf current = Ok m ∧ addresses = mapToSlice seed m.
Proof.
  unfold computeAddresses. destruct (addressMapOf current) as [m|e]; simpl; [|done].
  intros [= <-]. eauto.
Qed.

Lemma reconcile_unfold seed u w :
  cycle seed u w =
  match GetNode u w with
  | (Err e, w1, t) => (Err (Wrapf "failed to get node" e), w1, t)
  | (Ok node, w1, t) =>
      match compute seed (Addresses (Status node)) with
      | Err e => (Err e, w1, t)
      | Ok addresses =>
          if addressesEqual (Addresses (Status node)) addresses
          then extend t (removeTaintStep cfg u w1)
          else
            match UpdateAddresses u addresses w1 with
            | (Err e, w2, t2) =>
                (Err (Wrapf "failed to update addresses" e), w2, t ++ t2)
            | (Ok _, w2, t2) => extend (t ++ t2) (removeTaintStep cfg u w2)
            end
      end
  end.
Proof.
  unfold reconcile, updateIfChanged, mbind, Api_bind, orWrap, pure, extend.
  destruct (GetNode u w) as [[[node|e] w1] t]; [|done].
  destruct (compute seed (Addresses (Status node))) as [addresses|e];
    [|by rewrite app_nil_r].
  destruct (addressesEqual (Addresses (Status node)) addresses).
  - unfold mret, Api_ret.
    destruct (removeTaintStep cfg u w1) as [[r w2] t2]. by simpl.
  - destruct (UpdateAddresses u addresses w1) as [[[[]|e] w2] t2]; [|done].
    destruct (removeTaintStep cfg u w2) as [[r w3] t3]. simpl.
    by rewrite app_assoc.
Qed.

(** RemoveTaint either leaves the cluster alone or asks to replace the
    taints by what is left when the first cloud provider taint is taken
    out. *)
Lemma RemoveTaint_run u w :
  ∃ r w' t, RemoveTaint u w = (r, w', t)
    ∧ (nodes w' = nodes w ∧ t = [CallGet (nodeName u)]
       ∨ ∃ n pre x post,
           nodes w !! nodeName u = Some n
           ∧ Taints (Spec n) = pre ++ x :: post
           ∧ Forall (λ t, Key t ≠ TaintKey) pre ∧ Key x = TaintKey
           ∧ t = [CallGet (nodeName u);
                  CallPatch (nodeName u) (taintPatch (pre ++ post)) []]
           ∧ (nodes w' = nodes w
              ∨ nodes w' = <[nodeName u := setTaints (pre ++ post) n]> (nodes w))).
Proof.
  destruct (GetNode_run u w) as (r & Hrun & Hn).
  destruct r as [n|e].
  - specialize (Hn n eq_refl).
    destruct (taintIndexFrom 0 (Taints (Spec n))) as [i|] eqn:Hi.
    + apply taintIndexFrom_Some in Hi as (pre & x & post & Hts & _ & Hx & Hpre).
      destruct (RemoveTaint_present u w n pre x post)
        as (r & w' & Heq & _ & Hcases); [by rewrite Hrun|done..|].
      exists r, w', [CallGet (nodeName u);
                    CallPatch (nodeName u) (taintPatch (pre ++ post)) []].
      split; [done|]. right. exists n, pre, x, post.
      split_and!; [done..|]. destruct Hcases as [[_ ?]|[_ ?]]; eauto.
    + apply taintIndexFrom_None in Hi.
      rewrite (RemoveTaint_absent u w n) by (by rewrite ?Hrun).
      do 3 eexists. split; [done|]. by left.
  - rewrite RemoveTaint_unfold, Hrun. do 3 eexists. split; [done|]. by left.
Qed.

Lemma filter_foreign_removed (pre : list Taint) x post :
  Key x = TaintKey →
  filter (λ t, Key t ≠ TaintKey) (pre ++ post)
  = filter (λ t, Key t ≠ TaintKey) (pre ++ x :: post).
Proof.
  intros Hx. rewrite !filter_app. f_equal.
  by rewrite filter_cons_False by (by intros ?).
Qed.

(** The taint step writes no address, keeps the status of the node and
    keeps every taint with another key, in order. *)
Lemma removeTaintStep_run u w :
  ∃ r w' t, removeTaintStep cfg u w = (r, w', t)
    ∧ addressWrites t = []
    ∧ ∀ n, nodes w !! nodeName u = Some n →
        Forall (λ l, filter (λ t, Key t ≠ TaintKey) l
                     = filter (λ t, Key t ≠ TaintKey) (Taints (Spec n)))
               (taintWrites t)
        ∧ ∃ n', nodes w' !! nodeName u = Some n' ∧ Status n' = Status n
            ∧ filter (λ t, Key t ≠ TaintKey) (Taints (Spec n'))
              = filter (λ t, Key t ≠ TaintKey) (Taints (Spec n)).
Proof.
  unfold removeTaintStep. destruct (removeTaint cfg).
  - destruct (RemoveTaint_run u w) as (r & w' & t & Heq & Hcases).
    unfold orWrap. rewrite Heq.
    exists (match r with Ok a => Ok a | Err e => Err (Wrapf "failed to remove taint" e) end),
      w', t.
    split; [by destruct r|].
    destruct Hcases as [[Hn ->]|(n & pre & x & post & Hn & Hts & Hpre & Hx & -> & Hw')].
    + split; [done|]. intros n Hlook. split; [constructor|].
      exists n. by rewrite Hn.
    + split; [done|]. intros n0 Hlook. rewrite Hn in Hlook. injection Hlook as <-.
      split.
      * repeat constructor. simpl. rewrite Hts. by apply filter_foreign_removed.
      * destruct Hw' as [->| ->].
        -- by exists n.
        -- exists (setTaints (pre ++ post) n). rewrite lookup_insert_eq.
           split_and!; [done..|]. simpl. rewrite Hts.
           by apply filter_foreign_removed.
  - exists (Ok ()), w, []. split; [done|]. split; [done|].
    intros n Hn. split; [constructor|]. by exists n.
Qed.

Lemma compute_Err_external seed current e :
  detect (externalIPTarget cfg) = Err e → is_ok (compute seed current) = false.
Proof.
  intros He. unfold computeAddresses, computeAddressMap, detectExternalIP.
  destruct (internalStep (mapOf current)); simpl; [|done]. by rewrite He.
Qed.

(** A cycle that cannot read the node or cannot compute the addresses
    stops after the read. *)
Lemma cycle_stops_early seed u w :
  (∀ n, outcome (GetNode u w) = Ok n →
        is_ok (compute seed (Addresses (Status n))) = false) →
  is_ok (outcome (cycle seed u w)) = false
  ∧ calls (cycle seed u w) = [CallGet (nodeName u)]
  ∧ final (cycle seed u w) = served w.
Proof.
  intros Hfail. rewrite reconcile_unfold.
  destruct (GetNode_run u w) as (r & Hrun & _). rewrite Hrun in Hfail |- *.
  destruct r as [n|e]; [|done].
  specialize (Hfail n eq_refl).
  by destruct (compute seed (Addresses (Status n))).
Qed.

(** The address writes of a cycle that reads the node and computes its
    addresses: none when addressesEqual says so, else the computed list. *)
Lemma cycle_addressWrites seed u w n addresses :
  outcome (GetNode u w) = Ok n →
  compute seed (Addresses (Status n)) = Ok addresses →
  addressWrites (calls (cycle seed u w))
  = if addressesEqual (Addresses (Status n)) addresses then [] else [addresses].
Proof.
  intros Hget Hc. rewrite reconcile_unfold.
  destruct (GetNode_run u w) as (r & Hrun & _). rewrite Hrun in Hget |- *.
  unfold outcome in Hget. simpl in Hget. subst r. rewrite Hc.
  destruct (addressesEqual (Addresses (Status n)) addresses).
  - destruct (removeTaintStep_run u (served w)) as (r & w' & t & -> & Ht & _).
    unfold extend, calls. simpl. by rewrite Ht.
  - destruct (UpdateAddresses_run u addresses (served w))
      as (r & w2 & -> & _ & _).
    destruct r as [[]|e]; [|done].
    destruct (removeTaintStep_run u w2) as (r & w' & t & -> & Ht & _).
    unfold extend, calls. simpl. by rewrite Ht.
Qed.

(** The node a completed cycle leaves. *)
Lemma cycle_final seed u w n addresses :
  outcome (GetNode u w) = Ok n →
  compute seed (Addresses (Status n)) = Ok addresses →
  outcome (cycle seed u w) = Ok () →
  ∃ n', nodes (final (cycle seed u w)) !! nodeName u = Some n'
    ∧ Addresses (Status n')
      = (if addressesEqual (Addresses (Status n)) addresses
         then Addresses (Status n) else addresses)
    ∧ filter (λ t, Key t ≠ TaintKey) (Taints (Spec n'))
      = filter (λ t, Key t ≠ TaintKey) (Taints (Spec n)).
Proof.
  intros Hget Hc. rewrite reconcile_unfold.
  destruct (GetNode_run u w) as (r & Hrun & Hn). rewrite Hrun in Hget |- *.
  unfold outcome in Hget. simpl in Hget. subst r. rewrite Hc.
  specialize (Hn n eq_refl).
  destruct (addressesEqual (Addresses (Status n)) addresses).
  - destruct (removeTaintStep_run u (served w)) as (r & w' & t & -> & _ & Hkeep).
    destruct (Hkeep n Hn) as (_ & n' & Hn' & Hst & Hts).
    intros _. exists n'. unfold extend, final. simpl. by rewrite Hst.
  - destruct (UpdateAddresses_run u addresses (served w))
      as (r & w2 & -> & _ & Hcases).
    destruct Hcases as [[[e ->] _]|(n0 & -> & Hn0 & Hw2)]; [done|].
    simpl in Hn0. rewrite Hn in Hn0. injection Hn0 as <-.
    destruct (removeTaintStep_run u w2) as (r & w' & t & -> & _ & Hkeep).
    destruct (Hkeep (setAddresses addresses n)) as (_ & n' & Hn' & Hst & Hts).
    { rewrite Hw2. apply lookup_insert_eq. }
    intros _. exists n'. unfold extend, final. simpl. by rewrite Hst.
Qed.

(** The taint writes of a cycle keep the taints with other keys. *)
Lemma cycle_taintWrites seed u w n :
  outcome (GetNode u w) = Ok n →
  Forall (λ l, filter (λ t, Key t ≠ TaintKey) l
               = filter (λ t, Key t ≠ TaintKey) (Taints (Spec n)))
         (taintWrites (calls (cycle seed u w))).
Proof.
  intros Hget. rewrite reconcile_unfold.
  destruct (GetNode_run u w) as (r & Hrun & Hn). rewrite Hrun in Hget |- *.
  unfold outcome in Hget. simpl in Hget. subst r. specialize (Hn n eq_refl).
  destruct (compute seed (Addresses (Status n))) as [addresses|e];
    [|by constructor].
  destruct (addressesEqual (Addresses (Status n)) addresses).
  - destruct (removeTaintStep_run u (served w)) as (r & w' & t & -> & _ & Hkeep).
    destruct (Hkeep n Hn) as (Hall & _). by unfold extend, calls.
  - destruct (UpdateAddresses_run u addresses (served w))
      as (r & w2 & -> & _ & Hcases).
    destruct Hcases as [[[e ->] _]|(n0 & -> & Hn0 & Hw2)]; [by constructor|].
    simpl in Hn0. rewrite Hn in Hn0. injection Hn0 as <-.
    destruct (removeTaintStep_run u w2) as (r & w' & t & -> & _ & Hkeep).
    destruct (Hkeep (setAddresses addresses n)) as (Hall & _).
    { rewrite Hw2. apply lookup_insert_eq. }
    by unfold extend, calls.
Qed.

Lemma addressMapOf_foreign current m k :
  addressMapOf current = Ok m →
  k ≠ NodeInternalIP → k ≠ NodeExternalIP →
  m !! k = mapOf current !! k.
Proof.
  intros (m1 & E & Hint & _ & ->)%addressMapOf_Ok Hi He.
  rewrite setExternalIP_lookup_ne by done.
  apply internalStep_Ok in Hint as [[_ ->]|(_ & i & _ & ->)]; [done|].
  by rewrite lookup_insert_ne.
Qed.

Lemma addressMapOf_internal_unset current m :
  internalIPTarget cfg = "" → addressMapOf current = Ok m →
  m !! NodeInternalIP = mapOf current !! NodeInternalIP.
Proof.
  intros Ht (m1 & E & Hint & _ & ->)%addressMapOf_Ok.
  rewrite setExternalIP_lookup_ne by done.
  by apply internalStep_Ok in Hint as [[_ ->]|(? & _)].
Qed.

Lemma cycle_Ok seed u w :
  outcome (cycle seed u w) = Ok () →
  ∃ n m, outcome (GetNode u w) = Ok n
    ∧ addressMapOf (Addresses (Status n)) = Ok m
    ∧ compute seed (Addresses (Status n)) = Ok (mapToSlice seed m).
Proof.
  intros Hok.
  destruct (outcome (GetNode u w)) as [n|e] eqn:Hget.
  - destruct (compute seed (Addresses (Status n))) as [addresses|e] eqn:Hc.
    + apply compute_Ok in Hc as Hm. destruct Hm as (m & Hm & ->). eauto.
    + destruct (cycle_stops_early seed u w) as (Hfail & _).
      { intros n' Hn'. rewrite Hget in Hn'. injection Hn' as <-. by rewrite Hc. }
      by rewrite Hok in Hfail.
  - destruct (cycle_stops_early seed u w) as (Hfail & _).
    { intros n' Hn'. by rewrite Hget in Hn'. }
    by rewrite Hok in Hfail.
Qed.

(** ** The claims about the cycle *)

(** C1, as amended.  addressesEqual reports lists of different lengths as
    different.  On lists that hold at most one entry per type, the first of
    them without an empty address, it answers true exactly when the two lists
    hold the same (type, value) pairs.  A cycle that fetched the first list
    and computed the second skips the address write exactly when
    addressesEqual answers true. *)
Theorem addresses_diff_by_set (a b : list NodeAddress) :
  (length a ≠ length b → addressesEqual a b = false)
  ∧ (NoDup (Type_ <$> a) → NoDup (Type_ <$> b) →
     Forall (λ x, Address x ≠ "") a →
     (addressesEqual a b = true ↔ ∀ x, x ∈ a ↔ x ∈ b))
  ∧ ∀ seed u w n,
      outcome (GetNode u w) = Ok n → Addresses (Status n) = a →
      compute seed a = Ok b →
      (addressWrites (calls (cycle seed u w)) = [] ↔ addressesEqual a b = true).
Proof.
  split_and!.
  - intros Hlen. apply not_true_is_false.
    by intros [? _]%addressesEqual_spec.
  - intros Ha Hb Hne. split.
    + intros Heq%addressesEqual_sound; [|done..]. intros x. by rewrite Heq.
    + by apply addressesEqual_complete.
  - intros seed u w n Hget Hn Hc.
    rewrite (cycle_addressWrites seed u w n b) by (by rewrite ?Hn).
    rewrite Hn. by destruct (addressesEqual a b).
Qed.

(** Preservation, as far as the code has it.  In every address list a cycle
    writes, each fetched entry whose type is neither InternalIP nor ExternalIP
    and which no later entry of the same type follows is present as it was; in
    every taint list a cycle writes, the taints with a key other than the
    cloud provider one are the fetched ones, in their order. *)
Theorem foreign_fields_preserved seed u w n :
  outcome (GetNode u w) = Ok n →
  Forall (λ l, ∀ pre x post,
            Addresses (Status n) = pre ++ x :: post →
            Type_ x ≠ NodeInternalIP → Type_ x ≠ NodeExternalIP →
            Type_ x ∉ Type_ <$> post → x ∈ l)
         (addressWrites (calls (cycle seed u w)))
  ∧ Forall (λ l, filter (λ t, Key t ≠ TaintKey) l
                 = filter (λ t, Key t ≠ TaintKey) (Taints (Spec n)))
           (taintWrites (calls (cycle seed u w))).
Proof.
  intros Hget. split; [|by apply cycle_taintWrites].
  destruct (compute seed (Addresses (Status n))) as [addresses|e] eqn:Hc.
  - rewrite (cycle_addressWrites seed u w n addresses) by done.
    destruct (addressesEqual _ _); repeat constructor.
    intros pre x post Ha Hi He Hlast.
    apply compute_Ok in Hc as (m & Hm & ->). apply elem_of_mapToSlice.
    rewrite (addressMapOf_foreign _ _ _ Hm) by done.
    rewrite Ha. by apply mapOf_last.
  - destruct (cycle_stops_early seed u w) as (_ & -> & _); [|constructor].
    intros n' Hn'. rewrite Hget in Hn'. injection Hn' as <-. by rewrite Hc.
Qed.


(** C4.  Idempotence: after a cycle that completed, a second cycle on the
    node it left, with the same routes (whatever the order in which the maps
    are walked and whatever the API answers), writes no addresses. *)
Theorem reconcile_idempotent seed1 seed2 u w w2 :
  outcome (cycle seed1 u w) = Ok () →
  nodes w2 = nodes (final (cycle seed1 u w)) →
  addressWrites (calls (cycle seed2 u w2)) = [].
Proof.
  intros Hok Hw2.
  destruct (cycle_Ok seed1 u w Hok) as (n & m & Hget & Hm & Hc).
  destruct (cycle_final seed1 u w n _ Hget Hc Hok) as (n' & Hn' & Ha' & _).
  destruct (outcome (GetNode u w2)) as [n2|e] eqn:Hget2; cycle 1.
  { destruct (cycle_stops_early seed2 u w2) as (_ & -> & _); [|done].
    intros ? Hn. by rewrite Hget2 in Hn. }
  assert (n2 = n') as ->.
  { destruct (GetNode_run u w2) as (r & Hrun & Hlook). rewrite Hrun in Hget2.
    unfold outcome in Hget2. simpl in Hget2. subst r.
    specialize (Hlook n2 eq_refl). rewrite Hw2, Hn' in Hlook. by injection Hlook. }
  assert (compute seed2 (Addresses (Status n')) = Ok (mapToSlice seed2 m)
          ∧ addressesEqual (Addresses (Status n')) (mapToSlice seed2 m) = true)
    as [Hc2 Heq2].
  { rewrite Ha'.
    destruct (addressesEqual (Addresses (Status n)) (mapToSlice seed1 m)) eqn:Heq.
    - split; [unfold computeAddresses; by rewrite Hm|].
      rewrite <- Heq. apply addressesEqual_mapOf.
      + by rewrite !length_mapToSlice.
      + by rewrite !mapOf_mapToSlice.
    - split.
      + unfold computeAddresses. by rewrite (addressMapOf_stable _ _ _ Hm).
      + rewrite <- (addressesEqual_mapToSlice seed1 m) at 1.
        apply addressesEqual_mapOf.
        * by rewrite !length_mapToSlice.
        * by rewrite !mapOf_mapToSlice. }
  by rewrite (cycle_addressWrites seed2 u w2 n' _ Hget2 Hc2), Heq2.
Qed.

(** C5.  When the route to the external target cannot be resolved, the
    cycle returns an error having sent nothing but the read of the node: no
    address patch, no request of the taint removal, and the stored nodes are
    as they were. *)
Theorem external_failure_aborts seed u w e :
  detect (externalIPTarget cfg) = Err e →
  is_ok (outcome (cycle seed u w)) = false
  ∧ calls (cycle seed u w) = [CallGet (nodeName u)]
  ∧ nodes (final (cycle seed u w)) = nodes w.
Proof.
  intros He.
  destruct (cycle_stops_early seed u w) as (Hr & Hc & ->); [|done].
  intros n _. by eapply compute_Err_external.
Qed.

(** Disabled internal detection, as far as the code has it.  With no
    internal target, a completed cycle brings in no InternalIP entry and keeps
    the last InternalIP entry of the fetched list; when the fetched list has at
    most one entry per type, the InternalIP entry is kept as it is and, if it
    differs from the detected external IP, the node ends with that ExternalIP:
    a node with InternalIP 192.168.1.1 and an external target resolving to
    203.0.113.10 ends with both. *)
Theorem internal_ip_kept_when_unset seed u w n E :
  internalIPTarget cfg = "" →
  detect (externalIPTarget cfg) = Ok E →
  outcome (GetNode u w) = Ok n →
  outcome (cycle seed u w) = Ok () →
  ∃ n', nodes (final (cycle seed u w)) !! nodeName u = Some n'
    ∧ (∀ x, Type_ x = NodeInternalIP →
            x ∈ Addresses (Status n') → x ∈ Addresses (Status n))
    ∧ (∀ pre x post,
          Addresses (Status n) = pre ++ x :: post →
          Type_ x = NodeInternalIP → NodeInternalIP ∉ Type_ <$> post →
          x ∈ Addresses (Status n'))
    ∧ (NoDup (Type_ <$> Addresses (Status n)) →
       ∀ v, mkNodeAddress NodeInternalIP v ∈ Addresses (Status n) →
            mkNodeAddress NodeInternalIP v ∈ Addresses (Status n')
            ∧ (v ≠ E → mkNodeAddress NodeExternalIP E ∈ Addresses (Status n'))).
Proof.
  intros Ht Hext Hget Hok.
  destruct (cycle_Ok seed u w Hok) as (n0 & m & Hget0 & Hm & Hc).
  rewrite Hget in Hget0. injection Hget0 as <-.
  destruct (cycle_final seed u w n _ Hget Hc Hok) as (n' & Hn' & Ha' & _).
  exists n'. split; [done|]. rewrite Ha'.
  pose proof (addressMapOf_internal_unset _ _ Ht Hm) as Hint.
  destruct (addressesEqual (Addresses (Status n)) (mapToSlice seed m)) eqn:Heq.
  - split; [done|]. split.
    { intros pre x post -> _ _. apply elem_of_app. right. by left. }
    intros Hnd v Hv. split; [done|]. intros HvE.
    apply addressesEqual_spec in Heq as [Hlen Hall].
    rewrite length_mapToSlice, mapOf_mapToSlice in *.
    apply addressMapOf_Ok in Hm as (m1 & E' & Hm1 & HE' & ->).
    rewrite Hext in HE'. injection HE' as <-.
    apply internalStep_Ok in Hm1 as [[_ ->]|[? _]]; [|done].
    apply mapOf_lookup_NoDup in Hv; [|done].
    assert (setExternalIP (mapOf (Addresses (Status n))) E
            = <[NodeExternalIP := E]> (mapOf (Addresses (Status n)))) as Hset.
    { unfold setExternalIP. rewrite Hv. by rewrite bool_decide_false. }
    rewrite Hset in *.
    destruct (mapOf (Addresses (Status n)) !! NodeExternalIP) as [v0|] eqn:Hv0.
    + apply Hall in Hv0 as Hidx. unfold index in Hidx.
      rewrite lookup_insert_eq in Hidx. simpl in Hidx. subst v0.
      by apply mapOf_lookup_Some.
    + rewrite map_size_insert_None, size_mapOf_NoDup in Hlen by done. lia.
  - split.
    { intros x Hx Hin%elem_of_mapToSlice. rewrite Hx, Hint in Hin.
      apply mapOf_lookup_Some in Hin. by destruct x; simplify_eq/=. }
    split.
    { intros pre x post Ha Hx Hlast. apply elem_of_mapToSlice.
      rewrite Hx, Hint, Ha, <- Hx. apply mapOf_last. by rewrite Hx. }
    intros Hnd v Hv. apply mapOf_lookup_NoDup in Hv; [|done].
    apply addressMapOf_Ok in Hm as (m1 & E' & Hm1 & HE' & ->).
    rewrite Hext in HE'. injection HE' as <-.
    apply internalStep_Ok in Hm1 as [[_ ->]|[? _]]; [|done].
    split.
    + apply elem_of_mapToSlice. simpl. by rewrite setExternalIP_lookup_ne.
    + intros HvE. apply elem_of_mapToSlice. simpl.
      rewrite setExternalIP_lookup, bool_decide_false; [done|]. congruence.
Qed.

(** C8.  DetectIP fails on the empty string and on every string that does
    not parse as an IP address; it fails when the route lookup fails or
    returns no route, and when the first route has no source address; in
    every other case it returns the source address of the first route as a
    string. *)
Theorem DetectIP_result (targetIP : string) :
  (targetIP = "" ∨ ParseIP targetIP = None → is_ok (detect targetIP) = false)
  ∧ (∀ dstIP, ParseIP targetIP = Some dstIP →
       (is_ok (RouteGet dstIP) = false ∨ RouteGet dstIP = Ok []
        ∨ ∃ route rest, RouteGet dstIP = Ok (route :: rest) ∧ Src route = None) →
       is_ok (detect targetIP) = false)
  ∧ (∀ dstIP route rest src,
       targetIP ≠ "" → ParseIP targetIP = Some dstIP →
       RouteGet dstIP = Ok (route :: rest) → Src route = Some src →
       detect targetIP = Ok (IPString src)).
Proof.
  unfold DetectIP. split_and!.
  - intros [->|Hp]; [done|]. case_bool_decide; [done|]. by rewrite Hp.
  - intros dstIP Hp Hroute. case_bool_decide; [done|]. rewrite Hp.
    destruct Hroute as [Hr|[Hr|(route & rest & Hr & Hs)]].
    + by destruct (RouteGet dstIP).
    + by rewrite Hr.
    + rewrite Hr. simpl. by rewrite Hs.
  - intros dstIP route rest src Hne Hp Hr Hs.
    rewrite bool_decide_false, Hp, Hr by done. simpl. by rewrite Hs.
Qed.

(** C9.  Every address list a cycle asks the API to write holds at most
    one entry per address type, whatever the fetched list repeats: in the map
    seeded from a list, the entry of a type is the last of that type in the
    list. *)
Theorem written_addresses_one_per_type seed u w :
  Forall (λ l, NoDup (Type_ <$> l)) (addressWrites (calls (cycle seed u w)))
  ∧ ∀ pre x post,
      Type_ x ∉ Type_ <$> post →
      mapOf (pre ++ x :: post) !! Type_ x = Some (Address x).
Proof.
  split; [|apply mapOf_last].
  destruct (outcome (GetNode u w)) as [n|e] eqn:Hget.
  - destruct (compute seed (Addresses (Status n))) as [addresses|e] eqn:Hc.
    + rewrite (cycle_addressWrites seed u w n addresses) by done.
      destruct (addressesEqual _ _); repeat constructor.
      apply compute_Ok in Hc as (m & _ & ->). apply NoDup_mapToSlice_types.
    + destruct (cycle_stops_early seed u w) as (_ & -> & _); [|constructor].
      intros n' Hn'. rewrite Hget in Hn'. injection Hn' as <-. by rewrite Hc.
  - destruct (cycle_stops_early seed u w) as (_ & -> & _); [|constructor].
    intros n' Hn'. by rewrite Hget in Hn'.
Qed.
End CycleProperties.

(** ** The claims about the taint removal *)

(** C7.  When the node holds no taint with the cloud provider key,
    RemoveTaint sends the read of the node and nothing else, so no patch, and
    the stored nodes are as they were; it returns nil whenever that read is
    answered. *)
Theorem RemoveTaint_noop u w n :
  nodes w !! nodeName u = Some n →
  Forall (λ t, Key t ≠ TaintKey) (Taints (Spec n)) →
  calls (RemoveTaint u w) = [CallGet (nodeName u)]
  ∧ nodes (final (RemoveTaint u w)) = nodes w
  ∧ (is_ok (outcome (GetNode u w)) = true → outcome (RemoveTaint u w) = Ok ()).
Proof.
  intros Hn Habs.
  destruct (GetNode_run u w) as (r & Hrun & Hlook). destruct r as [n'|e].
  - specialize (Hlook n' eq_refl). rewrite Hn in Hlook. injection Hlook as <-.
    by rewrite (RemoveTaint_absent u w n) by (by rewrite ?Hrun).
  - by rewrite RemoveTaint_unfold, Hrun.
Qed.

Lemma applyPatch_taintPatch taints n :
  applyPatch [] (taintPatch taints) n = Ok (setTaints taints n).
Proof. reflexivity. Qed.

(** RemoveTaint on a node that has the taint, when the API answers both
    requests. *)
Lemma RemoveTaint_answered u w n pre x post :
  nodes w !! nodeName u = Some n →
  Taints (Spec n) = pre ++ x :: post →
  Forall (λ t, Key t ≠ TaintKey) pre → Key x = TaintKey →
  (∀ e, head (faults w) ≠ Some (Some e)) →
  (∀ e, head (tail (faults w)) ≠ Some (Some e)) →
  RemoveTaint u w
  = (Ok (),
     mkWorld (<[nodeName u := setTaints (pre ++ post) n]> (nodes w))
       (tail (tail (faults w))),
     [CallGet (nodeName u); CallPatch (nodeName u) (taintPatch (pre ++ post)) []]).
Proof.
  intros Hn Hts Hpre Hx Hfirst Hsecond.
  rewrite RemoveTaint_unfold.
  assert (GetNode u w = (Ok n, served w, [CallGet (nodeName u)])) as ->.
  { unfold GetNode, clientGet, request. rewrite Hn.
    destruct (head (faults w)) as [[e|]|] eqn:Hf; [by destruct (Hfirst e)|done..]. }
  rewrite Hts, taintIndexFrom_first by done. cbv zeta. rewrite removed_middle.
  unfold clientPatch, request. cbn [faults nodes served].
  rewrite Hn, applyPatch_taintPatch.
  destruct (head (tail (faults w))) as [[e|]|] eqn:Hf; [by destruct (Hsecond e)|done..].
Qed.

(** C10.  One call of RemoveTaint takes out the first taint with the cloud
    provider key and no other.  The only list it asks the API to write is the
    fetched list without that entry, so later taints with the same key stay,
    in their order.  When the read is answered it sends exactly the read and
    that replace patch of /spec/taints on the node itself; when both requests
    are answered it returns nil and the node holds that list. *)
Theorem RemoveTaint_first_only u w n pre x post :
  nodes w !! nodeName u = Some n →
  Taints (Spec n) = pre ++ x :: post →
  Forall (λ t, Key t ≠ TaintKey) pre → Key x = TaintKey →
  Forall (λ l, l = pre ++ post) (taintWrites (calls (RemoveTaint u w)))
  ∧ (is_ok (outcome (GetNode u w)) = true →
     calls (RemoveTaint u w)
     = [CallGet (nodeName u);
        CallPatch (nodeName u)
          [mkPatchOp "replace" "/spec/taints" (TaintsValue (pre ++ post))] []]
     ∧ taintWrites (calls (RemoveTaint u w)) = [pre ++ post])
  ∧ (outcome (RemoveTaint u w) = Ok () →
     nodes (final (RemoveTaint u w)) !! nodeName u = Some (setTaints (pre ++ post) n))
  ∧ ((∀ e, head (faults w) ≠ Some (Some e)) →
     (∀ e, head (tail (faults w)) ≠ Some (Some e)) →
     outcome (RemoveTaint u w) = Ok ()
     ∧ nodes (final (RemoveTaint u w))
       = <[nodeName u := setTaints (pre ++ post) n]> (nodes w)
     ∧ taintsOf (final (RemoveTaint u w)) (nodeName u) = Some (pre ++ post)).
Proof.
  intros Hn Hts Hpre Hx. split_and!.
  - destruct (GetNode_run u w) as (r & Hrun & Hlook). destruct r as [n'|e].
    + specialize (Hlook n' eq_refl). rewrite Hn in Hlook. injection Hlook as <-.
      destruct (RemoveTaint_present u w n pre x post) as (r & w' & -> & _ & _);
        [by rewrite Hrun|done..|].
      by repeat constructor.
    + rewrite RemoveTaint_unfold, Hrun. constructor.
  - destruct (GetNode_run u w) as (r & Hrun & Hlook). rewrite Hrun.
    destruct r as [n'|e]; [|done]. intros _.
    specialize (Hlook n' eq_refl). rewrite Hn in Hlook. injection Hlook as <-.
    destruct (RemoveTaint_present u w n pre x post) as (r & w' & -> & _ & _);
      [by rewrite Hrun|done..|].
    done.
  - destruct (GetNode_run u w) as (r & Hrun & Hlook). destruct r as [n'|e].
    + specialize (Hlook n' eq_refl). rewrite Hn in Hlook. injection Hlook as <-.
      destruct (RemoveTaint_present u w n pre x post) as (r & w' & -> & _ & Hcases);
        [by rewrite Hrun|done..|].
      unfold outcome, final. simpl.
      destruct Hcases as [[[e ->] _]|[_ ->]]; [done|].
      intros _. apply lookup_insert_eq.
    + by rewrite RemoveTaint_unfold, Hrun.
  - intros Hfirst Hsecond.
    rewrite (RemoveTaint_answered u w n pre x post) by done.
    unfold outcome, final, taintsOf. simpl. split; [done|]. split; [done|].
    by rewrite lookup_insert_eq.
Qed.

(** * The claims at concrete inputs *)

Lemma RemoveTaint_noop_witness :
  calls (RemoveTaint exUpdater exUntainted) = [CallGet "node1"]
  ∧ nodes (final (RemoveTaint exUpdater exUntainted)) = nodes exUntainted
  ∧ outcome (RemoveTaint exUpdater exUntainted) = Ok ().
Proof.
  destruct (RemoveTaint_noop exUpdater exUntainted (exNode exUntainted))
    as (Hcalls & Hnodes & Hok).
  - reflexivity.
  - by_compute.
  - split; [exact Hcalls|]. split; [exact Hnodes|]. apply Hok. reflexivity.
Defined.

Lemma RemoveTaint_first_only_witness :
  calls (RemoveTaint exUpdater exTainted)
  = [CallGet "node1";
     CallPatch "node1"
       [mkPatchOp "replace" "/spec/taints"
          (TaintsValue [exControlPlane; exUninitialized "NoExecute"])] []]
  ∧ taintWrites (calls (RemoveTaint exUpdater exTainted))
    = [[exControlPlane; exUninitialized "NoExecute"]]
  ∧ outcome (RemoveTaint exUpdater exTainted) = Ok ()
  ∧ nodes (final (RemoveTaint exUpdater exTainted)) !! "node1"
    = Some (setTaints [exControlPlane; exUninitialized "NoExecute"] (exNode exTainted))
  ∧ taintsOf (final (RemoveTaint exUpdater exTainted)) "node1"
    = Some [exControlPlane; exUninitialized "NoExecute"].
Proof.
  destruct (RemoveTaint_first_only exUpdater exTainted (exNode exTainted)
              [exControlPlane] (exUninitialized "NoSchedule") [exUninitialized "NoExecute"])
    as (_ & Hsent & Hnode & Hdone).
  - reflexivity.
  - reflexivity.
  - by_compute.
  - reflexivity.
  - destruct Hsent as [Hcalls Hwrite]; [reflexivity|].
    destruct Hdone as (Hok & _ & Htaints); [intros e; discriminate..|].
    split; [exact Hcalls|]. split; [exact Hwrite|]. split; [exact Hok|].
    split; [apply Hnode; exact Hok|exact Htaints].
Defined.

Lemma DetectIP_result_witness :
  is_ok (DetectIP exParseIP (exRouteGet exTable) id "node1") = false
  ∧ is_ok (DetectIP exParseIP (exRouteGet exTable) id "1.1.1.1") = false
  ∧ is_ok (DetectIP exParseIP (exRouteGet exTable) id "192.0.2.1") = false
  ∧ is_ok (DetectIP exParseIP (exRouteGet exTable) id "192.0.2.2") = false
  ∧ DetectIP exParseIP (exRouteGet exTable) id "10.0.0.2" = Ok "10.0.0.5".
Proof.
  split_and!.
  - apply (DetectIP_result exParseIP (exRouteGet exTable) id "node1").
    right. reflexivity.
  - apply (DetectIP_result exParseIP (exRouteGet exTable) id "1.1.1.1") with "1.1.1.1";
      [reflexivity|]. left. reflexivity.
  - apply (DetectIP_result exParseIP (exRouteGet exTable) id "192.0.2.1") with "192.0.2.1";
      [reflexivity|]. right. left. reflexivity.
  - apply (DetectIP_result exParseIP (exRouteGet exTable) id "192.0.2.2") with "192.0.2.2";
      [reflexivity|]. right. right. exists (mkRoute None), []. split; reflexivity.
  - apply (DetectIP_result exParseIP (exRouteGet exTable) id "10.0.0.2")
      with "10.0.0.2" (mkRoute (Some "10.0.0.5")) [mkRoute (Some "10.0.0.6")];
      [discriminate|reflexivity..].
Defined.

Lemma external_failure_aborts_witness :
  DetectIP exParseIP (exRouteGet exTable) id (externalIPTarget exNoRoute)
  = Err (Errorf "no route found to 192.0.2.1")
  ∧ is_ok (outcome (exCycle exNoRoute [] exEndToEnd)) = false
  ∧ calls (exCycle exNoRoute [] exEndToEnd) = [CallGet "node1"]
  ∧ nodes (final (exCycle exNoRoute [] exEndToEnd)) = nodes exEndToEnd.
Proof.
  split; [reflexivity|].
  apply (external_failure_aborts exParseIP (exRouteGet exTable) id exNoRoute
           [] exUpdater exEndToEnd (Errorf "no route found to 192.0.2.1")).
  reflexivity.
Defined.

Lemma addresses_diff_by_set_witness :
  let a := [mkNodeAddress "Hostname" "node1"] in
  let b := [mkNodeAddress "ExternalIP" "203.0.113.10"; mkNodeAddress "Hostname" "node1"] in
  length a ≠ length b
  ∧ addressesEqual a b = false
  ∧ NoDup (Type_ <$> a) ∧ NoDup (Type_ <$> b) ∧ Forall (λ x, Address x ≠ "") a
  ∧ (addressesEqual a b = true ↔ ∀ x, x ∈ a ↔ x ∈ b)
  ∧ (addressWrites (calls (exCycle exExternalOnly [] exEndToEnd)) = []
     ↔ addressesEqual a b = true).
Proof.
  intros a b.
  assert (length a ≠ length b) as Hlen; [by_compute|].
  assert (NoDup (Type_ <$> a)) as Ha; [by_compute|].
  assert (NoDup (Type_ <$> b)) as Hb; [by_compute|].
  assert (Forall (λ x, Address x ≠ "") a) as Hne; [by_compute|].
  destruct (addresses_diff_by_set exParseIP (exRouteGet exTable) id exExternalOnly a b)
    as (Hdiff & Hset & Hcycle).
  split_and!; [done| |done..| |].
  - apply Hdiff. exact Hlen.
  - apply Hset; assumption.
  - apply (Hcycle [] exUpdater exEndToEnd (exNode exEndToEnd)); reflexivity.
Defined.

(** C1 as stated fails both ways.  Two lists with the same pairs are told
    apart when one repeats an entry.  The list of a dual-stack node and the
    list computed from it are reported equal although only the second has the
    ExternalIP, and the cycle skips the write.  An absent type passes for an
    empty address. *)
Lemma addressesEqual_not_set_equality :
  (let a := [mkNodeAddress "Hostname" "node1"; mkNodeAddress "Hostname" "node1"] in
   let b := [mkNodeAddress "Hostname" "node1"] in
   addressesEqual a b = false ∧ ∀ x, x ∈ a ↔ x ∈ b)
  ∧ (let a := [mkNodeAddress "InternalIP" "192.168.1.1";
               mkNodeAddress "InternalIP" "fd00::1";
               mkNodeAddress "Hostname" "node1"] in
     let b := [mkNodeAddress "ExternalIP" "203.0.113.10";
               mkNodeAddress "InternalIP" "fd00::1";
               mkNodeAddress "Hostname" "node1"] in
     addressesEqual a b = true
     ∧ mkNodeAddress "ExternalIP" "203.0.113.10" ∈ b
     ∧ (mkNodeAddress "ExternalIP" "203.0.113.10" ∉ a)
     ∧ Addresses (Status (exNode exDualStack)) = a
     ∧ computeAddresses exParseIP (exRouteGet exTable) id exExternalOnly [] a = Ok b
     ∧ addressWrites (calls (exCycle exExternalOnly [] exDualStack)) = [])
  ∧ (let a := [mkNodeAddress "Hostname" ""] in
     let b := [mkNodeAddress "InternalDNS" ""] in
     addressesEqual a b = true ∧ mkNodeAddress "Hostname" "" ∉ b).
Proof.
  cbv zeta. split_and!.
  - reflexivity.
  - intros x. rewrite !elem_of_cons. tauto.
  - reflexivity.
  - by_compute.
  - by_compute.
  - reflexivity.
  - reflexivity.
  - reflexivity.
  - reflexivity.
  - by_compute.
Qed.

Lemma foreign_fields_preserved_witness :
  outcome (GetNode exUpdater exTwoDNS) = Ok (exNode exTwoDNS)
  ∧ addressWrites (calls (exCycle exBoth [] exTwoDNS))
    = [[mkNodeAddress "ExternalIP" "203.0.113.10";
        mkNodeAddress "InternalIP" "10.0.0.5";
        mkNodeAddress "InternalDNS" "node1.b.example";
        mkNodeAddress "Hostname" "node1"]]
  ∧ Forall (λ l, ∀ pre x post,
              Addresses (Status (exNode exTwoDNS)) = pre ++ x :: post →
              Type_ x ≠ NodeInternalIP → Type_ x ≠ NodeExternalIP →
              Type_ x ∉ Type_ <$> post → x ∈ l)
           (addressWrites (calls (exCycle exBoth [] exTwoDNS)))
  ∧ Forall (λ l, filter (λ t, Key t ≠ TaintKey) l
                 = filter (λ t, Key t ≠ TaintKey) (Taints (Spec (exNode exTwoDNS))))
           (taintWrites (calls (exCycle exBoth [] exTwoDNS))).
Proof.
  split; [reflexivity|]. split; [reflexivity|].
  apply (foreign_fields_preserved exParseIP (exRouteGet exTable) id exBoth
           [] exUpdater exTwoDNS (exNode exTwoDNS)).
  reflexivity.
Defined.

(** C2 at a node with a type that occurs twice: of the two InternalDNS
    entries fetched, neither InternalIP nor ExternalIP, the address list the
    cycle writes has the second only. *)
Lemma foreign_address_dropped :
  let first := mkNodeAddress "InternalDNS" "node1.a.example" in
  outcome (GetNode exUpdater exTwoDNS) = Ok (exNode exTwoDNS)
  ∧ first ∈ Addresses (Status (exNode exTwoDNS))
  ∧ Type_ first ≠ NodeInternalIP ∧ Type_ first ≠ NodeExternalIP
  ∧ addressWrites (calls (exCycle exBoth [] exTwoDNS))
    = [[mkNodeAddress "ExternalIP" "203.0.113.10";
        mkNodeAddress "InternalIP" "10.0.0.5";
        mkNodeAddress "InternalDNS" "node1.b.example";
        mkNodeAddress "Hostname" "node1"]]
  ∧ first ∉ [mkNodeAddress "ExternalIP" "203.0.113.10";
             mkNodeAddress "InternalIP" "10.0.0.5";
             mkNodeAddress "InternalDNS" "node1.b.example";
             mkNodeAddress "Hostname" "node1"].
Proof.
  cbv zeta. split_and!;
    [reflexivity|by_compute|discriminate|discriminate|reflexivity|by_compute].
Qed.


Lemma reconcile_idempotent_witness :
  outcome (exCycle exExternalOnly [] exEndToEnd) = Ok ()
  ∧ addressWrites (calls (exCycle exExternalOnly [] exEndToEnd))
    = [[mkNodeAddress "ExternalIP" "203.0.113.10"; mkNodeAddress "Hostname" "node1"]]
  ∧ addressWrites
      (calls (exCycle exExternalOnly [1; 0] (final (exCycle exExternalOnly [] exEndToEnd))))
    = [].
Proof.
  split; [reflexivity|]. split; [reflexivity|].
  apply (reconcile_idempotent exParseIP (exRouteGet exTable) id exExternalOnly
           [] [1; 0] exUpdater exEndToEnd); reflexivity.
Defined.

Lemma internal_ip_kept_when_unset_witness :
  internalIPTarget exExternalOnly = ""
  ∧ NoDup (Type_ <$> Addresses (Status (exNode exKubelet)))
  ∧ mkNodeAddress NodeInternalIP "192.168.1.1" ∈ Addresses (Status (exNode exKubelet))
  ∧ ∃ n', nodes (final (exCycle exExternalOnly [] exKubelet)) !! "node1" = Some n'
      ∧ mkNodeAddress NodeInternalIP "192.168.1.1" ∈ Addresses (Status n')
      ∧ mkNodeAddress NodeExternalIP "203.0.113.10" ∈ Addresses (Status n').
Proof.
  assert (NoDup (Type_ <$> Addresses (Status (exNode exKubelet)))) as Hnd; [by_compute|].
  assert (mkNodeAddress NodeInternalIP "192.168.1.1"
          ∈ Addresses (Status (exNode exKubelet))) as Hin; [by_compute|].
  split; [reflexivity|]. split; [done|]. split; [done|].
  destruct (internal_ip_kept_when_unset exParseIP (exRouteGet exTable) id exExternalOnly
              [] exUpdater exKubelet (exNode exKubelet) "203.0.113.10")
    as (n' & Hn' & _ & _ & Hkept); [reflexivity..|].
  exists n'. split; [exact Hn'|].
  destruct (Hkept Hnd "192.168.1.1" Hin) as [Hint Hext].
  split; [exact Hint|]. apply Hext. discriminate.
Defined.

(** C6 at dual-stack nodes, with no internal target.  On the node as kubelet
    registers it (two InternalIP entries and the Hostname) the cycle completes
    without a write and the node has no ExternalIP.  On the node that also has
    a stale ExternalIP the cycle writes the last InternalIP entry only, and
    the node no longer holds InternalIP 192.168.1.1. *)
Lemma internal_ip_removed_when_repeated :
  internalIPTarget exExternalOnly = ""
  ∧ DetectIP exParseIP (exRouteGet exTable) id (externalIPTarget exExternalOnly)
    = Ok "203.0.113.10"
  ∧ (mkNodeAddress NodeInternalIP "192.168.1.1" ∈ Addresses (Status (exNode exDualStack))
     ∧ outcome (exCycle exExternalOnly [] exDualStack) = Ok ()
     ∧ calls (exCycle exExternalOnly [] exDualStack) = [CallGet "node1"; CallGet "node1"]
     ∧ mkNodeAddress NodeExternalIP "203.0.113.10"
       ∉ Addresses (Status (exNode (final (exCycle exExternalOnly [] exDualStack)))))
  ∧ (mkNodeAddress NodeInternalIP "192.168.1.1"
       ∈ Addresses (Status (exNode exDualStackExternal))
     ∧ outcome (exCycle exExternalOnly [] exDualStackExternal) = Ok ()
     ∧ Addresses (Status (exNode (final (exCycle exExternalOnly [] exDualStackExternal))))
       = [mkNodeAddress "ExternalIP" "203.0.113.10"; mkNodeAddress "InternalIP" "fd00::1"]
     ∧ mkNodeAddress NodeInternalIP "192.168.1.1"
       ∉ Addresses (Status (exNode (final (exCycle exExternalOnly [] exDualStackExternal))))).
Proof.
  split_and!;
    [reflexivity|reflexivity|by_compute|reflexivity|reflexivity|by_compute
    |by_compute|reflexivity|reflexivity|by_compute].
Qed.

Lemma written_addresses_one_per_type_witness :
  addressWrites (calls (exCycle exExternalOnly [] exDualStackExternal))
  = [[mkNodeAddress "ExternalIP" "203.0.113.10"; mkNodeAddress "InternalIP" "fd00::1"]]
  ∧ Forall (λ l, NoDup (Type_ <$> l))
           (addressWrites (calls (exCycle exExternalOnly [] exDualStackExternal)))
  ∧ mapOf ([mkNodeAddress "InternalIP" "192.168.1.1"]
           ++ mkNodeAddress "InternalIP" "fd00::1"
              :: [mkNodeAddress "ExternalIP" "198.51.100.7"]) !! "InternalIP"
    = Some "fd00::1".
Proof.
  split; [reflexivity|].
  destruct (written_addresses_one_per_type exParseIP (exRouteGet exTable) id
              exExternalOnly [] exUpdater exDualStackExternal) as [Hone Hlast].
  split; [exact Hone|].
  apply (Hlast [mkNodeAddress "InternalIP" "192.168.1.1"]
               (mkNodeAddress "InternalIP" "fd00::1")
               [mkNodeAddress "ExternalIP" "198.51.100.7"]).
  by_compute.
Defined.

(** The end-to-end scenario. *)
Example end_to_end :
  outcome (exCycle exExternalOnly [] exEndToEnd) = Ok ()
  ∧ exNode (final (exCycle exExternalOnly [] exEndToEnd))
    = mkNode (mkNodeSpec [])
        (mkNodeStatus [mkNodeAddress "ExternalIP" "203.0.113.10";
                       mkNodeAddress "Hostname" "node1"]).
Proof. split; reflexivity. Qed.

(** * Further properties of the code *)

(** ** pkg/node/updater.go *)

Lemma setTaints_same n : setTaints (Taints (Spec n)) n = n.
Proof. by destruct n as [[?] ?]. Qed.

Lemma setAddresses_same n : setAddresses (Addresses (Status n)) n = n.
Proof. by destruct n as [? [?]]. Qed.

Lemma withoutFirstTaint_absent taints :
  Forall (λ t, Key t ≠ TaintKey) taints → withoutFirstTaint taints = taints.
Proof.
  intros Habs. unfold withoutFirstTaint.
  by apply (taintIndexFrom_None 0) in Habs as ->.
Qed.

Lemma withoutFirstTaint_present pre x post :
  Forall (λ t, Key t ≠ TaintKey) pre → Key x = TaintKey →
  withoutFirstTaint (pre ++ x :: post) = pre ++ post.
Proof.
  intros Hpre Hx. unfold withoutFirstTaint.
  rewrite taintIndexFrom_first by done. apply removed_middle.
Qed.

(** Every list of taints is of one of the two kinds. *)
Lemma taints_cases taints :
  Forall (λ t, Key t ≠ TaintKey) taints
  ∨ ∃ pre x post, taints = pre ++ x :: post
      ∧ Forall (λ t, Key t ≠ TaintKey) pre ∧ Key x = TaintKey.
Proof.
  destruct (taintIndexFrom 0 taints) as [i|] eqn:Hi.
  - right. apply taintIndexFrom_Some in Hi as (pre & x & post & ? & _ & ? & ?).
    eauto 10.
  - left. by apply (taintIndexFrom_None 0).
Qed.

Lemma cloudTaints_absent taints :
  Forall (λ t, Key t ≠ TaintKey) taints → cloudTaints taints = 0.
Proof.
  intros Habs. unfold cloudTaints.
  induction Habs as [|t taints Ht _ IH]; [done|].
  by rewrite filter_cons_False.
Qed.

Lemma cloudTaints_withoutFirstTaint taints :
  cloudTaints (withoutFirstTaint taints) = pred (cloudTaints taints).
Proof.
  destruct (taints_cases taints) as [Habs|(pre & x & post & -> & Hpre & Hx)].
  - by rewrite withoutFirstTaint_absent, cloudTaints_absent.
  - rewrite withoutFirstTaint_present by done. unfold cloudTaints.
    rewrite !filter_app, filter_cons_True, !length_app by done. simpl. lia.
Qed.

Lemma foreign_withoutFirstTaint taints :
  filter (λ t, Key t ≠ TaintKey) (withoutFirstTaint taints)
  = filter (λ t, Key t ≠ TaintKey) taints.
Proof.
  destruct (taints_cases taints) as [Habs|(pre & x & post & -> & Hpre & Hx)].
  - by rewrite withoutFirstTaint_absent.
  - rewrite withoutFirstTaint_present by done. by apply filter_foreign_removed.
Qed.

(** What a call of RemoveTaint leaves in the cluster. *)
Lemma RemoveTaint_final u w :
  match outcome (RemoveTaint u w) with
  | Ok _ =>
      ∃ n, nodes w !! nodeName u = Some n
        ∧ nodes (final (RemoveTaint u w))
          = <[nodeName u := setTaints (withoutFirstTaint (Taints (Spec n))) n]> (nodes w)
  | Err _ => nodes (final (RemoveTaint u w)) = nodes w
  end.
Proof.
  destruct (GetNode_run u w) as (r & Hrun & Hlook). destruct r as [n|e].
  - specialize (Hlook n eq_refl).
    destruct (taints_cases (Taints (Spec n))) as [Habs|(pre & x & post & Hts & Hpre & Hx)].
    + rewrite (RemoveTaint_absent u w n) by (by rewrite ?Hrun).
      unfold outcome, final. simpl. exists n. split; [done|].
      by rewrite withoutFirstTaint_absent, setTaints_same, insert_id.
    + destruct (RemoveTaint_present u w n pre x post) as (r & w' & -> & _ & Hcases);
        [by rewrite Hrun|done..|].
      unfold outcome, final. simpl.
      destruct Hcases as [[[e ->] Hw']|[-> Hw']]; [done|].
      exists n. split; [done|].
      by rewrite Hts, withoutFirstTaint_present.
  - by rewrite RemoveTaint_unfold, Hrun.
Qed.

(** X1.  UpdateAddresses sends one request, a JSON patch that replaces
    /status/addresses of its node through the status subresource by the list
    it was given.  When it returns nil the node holds exactly that list,
    nothing of what was there before, and its taints and the other nodes are
    as they were; when it returns an error the cluster is unchanged. *)
Theorem UpdateAddresses_replaces u addresses w :
  calls (UpdateAddresses u addresses w)
  = [CallPatch (nodeName u)
       [mkPatchOp "replace" "/status/addresses" (AddressesValue addresses)] ["status"]]
  ∧ match outcome (UpdateAddresses u addresses w) with
    | Ok _ =>
        addressesOf (final (UpdateAddresses u addresses w)) (nodeName u) = Some addresses
        ∧ taintsOf (final (UpdateAddresses u addresses w)) (nodeName u)
          = taintsOf w (nodeName u)
        ∧ ∀ name, name ≠ nodeName u →
            nodes (final (UpdateAddresses u addresses w)) !! name = nodes w !! name
    | Err _ => nodes (final (UpdateAddresses u addresses w)) = nodes w
    end.
Proof.
  destruct (UpdateAddresses_run u addresses w) as (r & w' & -> & _ & Hcases).
  split; [done|]. unfold outcome, final, addressesOf, taintsOf. simpl.
  destruct Hcases as [[[e ->] Hw']|(n & -> & Hn & Hw')]; [done|].
  rewrite Hw', Hn. split_and!.
  - by rewrite lookup_insert_eq.
  - by rewrite lookup_insert_eq.
  - intros name Hname. by rewrite lookup_insert_ne.
Qed.

(** X2.  A call of RemoveTaint that returns nil leaves the node with its
    taints minus the first one that has the cloud provider key, so with one
    such taint less if there was any, and with the other taints in their
    order; a call that returns an error leaves the cluster unchanged.  In both
    cases the addresses of the node and the other nodes are as they were. *)
Theorem RemoveTaint_effect u w :
  match outcome (RemoveTaint u w) with
  | Ok _ =>
      ∃ taints, taintsOf w (nodeName u) = Some taints
        ∧ taintsOf (final (RemoveTaint u w)) (nodeName u)
          = Some (withoutFirstTaint taints)
        ∧ cloudTaints (withoutFirstTaint taints) = pred (cloudTaints taints)
        ∧ filter (λ t, Key t ≠ TaintKey) (withoutFirstTaint taints)
          = filter (λ t, Key t ≠ TaintKey) taints
  | Err _ => nodes (final (RemoveTaint u w)) = nodes w
  end
  ∧ addressesOf (final (RemoveTaint u w)) (nodeName u) = addressesOf w (nodeName u)
  ∧ ∀ name, name ≠ nodeName u →
      nodes (final (RemoveTaint u w)) !! name = nodes w !! name.
Proof.
  pose proof (RemoveTaint_final u w) as Hfinal.
  unfold taintsOf, addressesOf.
  destruct (outcome (RemoveTaint u w)) as [[]|e].
  - destruct Hfinal as (n & Hn & ->). split_and!.
    + exists (Taints (Spec n)). rewrite Hn, lookup_insert_eq.
      split_and!; [done..| |].
      * apply cloudTaints_withoutFirstTaint.
      * apply foreign_withoutFirstTaint.
    + by rewrite Hn, lookup_insert_eq.
    + intros name Hname. by rewrite lookup_insert_ne.
  - by rewrite Hfinal.
Qed.

(** X3.  Once a call of RemoveTaint has returned nil on a node with at most
    one taint of the cloud provider key, the next call only reads the node:
    the removal is idempotent. *)
Theorem RemoveTaint_then_noop u w w2 taints :
  taintsOf w (nodeName u) = Some taints → cloudTaints taints ≤ 1 →
  outcome (RemoveTaint u w) = Ok () →
  nodes w2 = nodes (final (RemoveTaint u w)) →
  calls (RemoveTaint u w2) = [CallGet (nodeName u)]
  ∧ nodes (final (RemoveTaint u w2)) = nodes w2.
Proof.
  intros Hts Hone Hok Hw2.
  pose proof (RemoveTaint_final u w) as Hfinal. rewrite Hok in Hfinal.
  destruct Hfinal as (n & Hn & Hw').
  unfold taintsOf in Hts. rewrite Hn in Hts. injection Hts as <-.
  assert (Forall (λ t, Key t ≠ TaintKey) (withoutFirstTaint (Taints (Spec n)))) as Habs.
  { pose proof (cloudTaints_withoutFirstTaint (Taints (Spec n))) as Hc.
    destruct (taints_cases (withoutFirstTaint (Taints (Spec n))))
      as [?|(pre & x & post & Heq & _ & Hx)]; [done|].
    rewrite Heq in Hc. unfold cloudTaints at 1 in Hc.
    rewrite filter_app, filter_cons_True, length_app in Hc by done.
    simpl in Hc. lia. }
  assert (nodes w2 !! nodeName u
          = Some (setTaints (withoutFirstTaint (Taints (Spec n))) n)) as Hn2
    by (by rewrite Hw2, Hw', lookup_insert_eq).
  destruct (GetNode_run u w2) as (r & Hrun & Hlook). destruct r as [n'|e].
  - specialize (Hlook n' eq_refl). rewrite Hn2 in Hlook. injection Hlook as <-.
    by rewrite (RemoveTaint_absent u w2 (setTaints (withoutFirstTaint (Taints (Spec n))) n))
      by (by rewrite ?Hrun).
  - by rewrite RemoveTaint_unfold, Hrun.
Qed.

(** ** cmd/local-ccm/main.go: the address map and the comparison *)

Lemma mapOf_Permutation a a' :
  NoDup (Type_ <$> a) → a ≡ₚ a' → mapOf a = mapOf a'.
Proof.
  intros Hnd Hp.
  assert (NoDup (Type_ <$> a')) as Hnd' by (by rewrite <- Hp).
  apply map_eq. intros k. destruct (mapOf a !! k) as [v|] eqn:Hk.
  - symmetry. apply mapOf_lookup_NoDup; [done|].
    rewrite <- Hp. by apply mapOf_lookup_Some.
  - symmetry. apply mapOf_lookup_None. rewrite <- Hp. by apply mapOf_lookup_None.
Qed.

(** X4.  The two loops of reconcile that turn the address list into a map
    and the map back into a list undo each other: a map comes back from its
    list whatever the order of the walk, and a list without a repeated type
    comes back from its map up to the order of its entries. *)
Theorem address_map_round_trip :
  (∀ seed (m : gmap string string), mapOf (mapToSlice seed m) = m)
  ∧ (∀ seed a, NoDup (Type_ <$> a) → mapToSlice seed (mapOf a) ≡ₚ a).
Proof.
  split; [apply mapOf_mapToSlice|].
  intros seed a Hnd. apply NoDup_Permutation.
  - eapply NoDup_fmap_1, NoDup_mapToSlice_types.
  - by eapply NoDup_fmap_1.
  - intros [k v]. rewrite elem_of_mapToSlice. simpl. symmetry.
    by apply mapOf_lookup_NoDup.
Qed.

(** X5.  addressesEqual answers true on a list compared with itself, for
    every list, also one that repeats a type or holds empty addresses. *)
Theorem addressesEqual_refl a : addressesEqual a a = true.
Proof.
  apply addressesEqual_spec. split; [done|].
  intros k v Hkv. unfold index. by rewrite Hkv.
Qed.

(** X6.  On lists without a repeated type the answer of addressesEqual does
    not depend on the order of the entries of either list. *)
Theorem addressesEqual_unordered a a' b b' :
  NoDup (Type_ <$> a) → NoDup (Type_ <$> b) →
  a ≡ₚ a' → b ≡ₚ b' →
  addressesEqual a b = addressesEqual a' b'.
Proof.
  intros Ha Hb Hpa Hpb. apply eq_true_iff_eq.
  rewrite !addressesEqual_spec.
  rewrite <- (mapOf_Permutation a a'), <- (mapOf_Permutation b b') by done.
  by rewrite <- (Permutation_length Hpa), <- (Permutation_length Hpb).
Qed.

(** X7.  Whenever addressesEqual answers true, the two lists have the same
    length and every type that the map of the first list holds with a
    non-empty address has the same address in the second list: a skipped write
    never leaves such an entry of the node at odds with the computed list. *)
Theorem addressesEqual_true_covers a b k v :
  addressesEqual a b = true →
  mapOf a !! k = Some v → v ≠ "" →
  length a = length b ∧ mapOf b !! k = Some v ∧ mkNodeAddress k v ∈ b.
Proof.
  intros [Hlen Hall]%addressesEqual_spec Hk Hv.
  apply Hall in Hk. unfold index in Hk.
  destruct (mapOf b !! k) as [v'|] eqn:Hb; simpl in Hk; [|congruence].
  subst v'. split; [done|]. split; [done|]. by apply mapOf_lookup_Some.
Qed.

(** ** cmd/local-ccm/main.go: one cycle *)

Section CycleEffects.
Context {IP : Type}.
Variable ParseIP : string → option IP.
Variable RouteGet : IP → result (list (Route IP)).
Variable IPString : IP → string.
Variable cfg : Config.

Local Abbreviation detect := (DetectIP ParseIP RouteGet IPString).
Local Abbreviation addressMapOf := (computeAddressMap ParseIP RouteGet IPString cfg).
Local Abbreviation compute := (computeAddresses ParseIP RouteGet IPString cfg).
Local Abbreviation cycle := (reconcile ParseIP RouteGet IPString cfg).

(** The requests of the taint step and the cluster it leaves. *)
Lemma removeTaintStep_cases u w :
  ∃ r w' t, removeTaintStep cfg u w = (r, w', t)
    ∧ (removeTaint cfg = false ∧ t = [] ∧ r = Ok () ∧ w' = w
       ∨ removeTaint cfg = true
         ∧ (t = [CallGet (nodeName u)]
            ∨ ∃ taints, t = [CallGet (nodeName u);
                             CallPatch (nodeName u) (taintPatch taints) []])
         ∧ match r with
           | Ok _ =>
               ∃ n, nodes w !! nodeName u = Some n
                 ∧ nodes w'
                   = <[nodeName u := setTaints (withoutFirstTaint (Taints (Spec n))) n]>
                       (nodes w)
           | Err _ => nodes w' = nodes w
           end).
Proof.
  unfold removeTaintStep. destruct (removeTaint cfg).
  - pose proof (RemoveTaint_final u w) as Hfinal.
    destruct (RemoveTaint_run u w) as (r & w' & t & Heq & Hcases).
    rewrite Heq in Hfinal. unfold outcome, final in Hfinal. simpl in Hfinal.
    unfold orWrap. rewrite Heq.
    exists (match r with Ok a => Ok a | Err e => Err (Wrapf "failed to remove taint" e) end),
      w', t.
    split; [by destruct r|]. right. split; [done|]. split.
    + destruct Hcases as [[_ ->]|(n & pre & x & post & _ & _ & _ & _ & -> & _)]; eauto.
    + by destruct r.
  - exists (Ok ()), w, []. split; [done|]. by left.
Qed.

(** One cycle, case by case: either it stops after the read of the node,
    the cluster unchanged; or it has the node [n] and the address map [m], sends
    the address patch unless addressesEqual says the lists are equal, and, if
    that went well, goes on to the taint step. *)
Lemma cycle_effect seed u w :
  ∃ r w' t, cycle seed u w = (r, w', t)
    ∧ (t = [CallGet (nodeName u)] ∧ nodes w' = nodes w ∧ is_ok r = false
       ∧ (∀ n, outcome (GetNode u w) = Ok n →
               is_ok (addressMapOf (Addresses (Status n))) = false)
       ∨ ∃ n m tA tT,
           nodes w !! nodeName u = Some n
           ∧ outcome (GetNode u w) = Ok n
           ∧ addressMapOf (Addresses (Status n)) = Ok m
           ∧ t = CallGet (nodeName u) :: tA ++ tT
           ∧ (addressesEqual (Addresses (Status n)) (mapToSlice seed m) = true
              ∧ tA = []
              ∨ addressesEqual (Addresses (Status n)) (mapToSlice seed m) = false
                ∧ tA = [CallPatch (nodeName u) (addressPatch (mapToSlice seed m))
                          ["status"]])
           ∧ let a' := if addressesEqual (Addresses (Status n)) (mapToSlice seed m)
                       then Addresses (Status n) else mapToSlice seed m in
             (tA ≠ [] ∧ tT = [] ∧ is_ok r = false ∧ nodes w' = nodes w
              ∨ removeTaint cfg = false ∧ tT = [] ∧ r = Ok ()
                ∧ nodes w' = <[nodeName u := setAddresses a' n]> (nodes w)
              ∨ removeTaint cfg = true
                ∧ (tT = [CallGet (nodeName u)]
                   ∨ ∃ taints, tT = [CallGet (nodeName u);
                                     CallPatch (nodeName u) (taintPatch taints) []])
                ∧ nodes w'
                  = <[nodeName u :=
                        if is_ok r
                        then setTaints (withoutFirstTaint (Taints (Spec n)))
                               (setAddresses a' n)
                        else setAddresses a' n]> (nodes w))).
Proof.
  rewrite reconcile_unfold.
  destruct (GetNode_run u w) as (r0 & Hrun & Hlook). rewrite Hrun.
  destruct r0 as [n|e]; cycle 1.
  { do 3 eexists. split; [done|]. left. split_and!; [done..|].
    intros n. by unfold outcome. }
  specialize (Hlook n eq_refl). unfold computeAddresses.
  destruct (addressMapOf (Addresses (Status n))) as [m|e] eqn:Hm; simpl; cycle 1.
  { do 3 eexists. split; [done|]. left. split_and!; [done..|].
    unfold outcome. simpl. intros ? [= <-]. by rewrite Hm. }
  destruct (addressesEqual (Addresses (Status n)) (mapToSlice seed m)) eqn:Heq.
  - destruct (removeTaintStep_cases u (served w)) as (r & w' & t & -> & Hcases).
    exists r, w', ([CallGet (nodeName u)] ++ t). split; [done|]. right.
    exists n, m, [], t. split_and!; [done..| |].
    { by left. }
    simpl. rewrite Heq, setAddresses_same.
    destruct Hcases as [(Hrt & -> & -> & ->)|(Hrt & Ht & Hw')].
    + right. left. split_and!; [done..|]. by rewrite insert_id.
    + right. right. split; [done|]. split; [done|].
      destruct r as [[]|e]; simpl.
      * destruct Hw' as (n0 & Hn0 & ->). simpl in Hn0. rewrite Hlook in Hn0.
        by injection Hn0 as <-.
      * rewrite Hw'. by rewrite insert_id.
  - destruct (UpdateAddresses_run u (mapToSlice seed m) (served w))
      as (r1 & w1 & -> & _ & Hcases1).
    destruct Hcases1 as [[[e ->] Hw1]|(n0 & -> & Hn0 & Hw1)].
    + do 3 eexists. split; [done|]. right.
      exists n, m, [CallPatch (nodeName u) (addressPatch (mapToSlice seed m)) ["status"]], [].
      split_and!; [done..| |].
      { by right. }
      left. by split_and!.
    + simpl in Hn0. rewrite Hlook in Hn0. injection Hn0 as <-. simpl in Hw1.
      destruct (removeTaintStep_cases u w1) as (r & w' & t & -> & Hcases).
      exists r, w',
        (([CallGet (nodeName u)]
          ++ [CallPatch (nodeName u) (addressPatch (mapToSlice seed m)) ["status"]]) ++ t).
      split; [done|]. right.
      exists n, m, [CallPatch (nodeName u) (addressPatch (mapToSlice seed m)) ["status"]], t.
      split_and!; [done..| |].
      { by right. }
      simpl. rewrite Heq.
      destruct Hcases as [(Hrt & -> & -> & ->)|(Hrt & Ht & Hw')].
      * right. left. by split_and!.
      * right. right. split; [done|]. split; [done|].
        destruct r as [[]|e]; simpl.
        -- destruct Hw' as (n0 & Hn0 & ->). rewrite Hw1, lookup_insert_eq in Hn0.
           injection Hn0 as <-. by rewrite Hw1, insert_insert_eq.
        -- by rewrite Hw', Hw1.
Qed.

Lemma addressMapOf_needs current :
  is_ok (addressMapOf current)
  = (bool_decide (internalIPTarget cfg = "") || is_ok (detect (internalIPTarget cfg)))
    && is_ok (detect (externalIPTarget cfg)).
Proof.
  unfold computeAddressMap, detectInternalIP, detectExternalIP.
  destruct (decide (internalIPTarget cfg = "")) as [Ht|Ht].
  - rewrite bool_decide_false, (bool_decide_true (internalIPTarget cfg = ""))
      by (done || by intros ?).
    simpl. by destruct (detect (externalIPTarget cfg)).
  - rewrite bool_decide_true, (bool_decide_false (internalIPTarget cfg = "")) by done.
    simpl. destruct (detect (internalIPTarget cfg)); simpl; [|done].
    by destruct (detect (externalIPTarget cfg)).
Qed.

(** X8.  When an internal target is set and its route cannot be resolved,
    the cycle returns an error having sent nothing but the read of the node,
    and the cluster is as it was: the external address is not written on its
    own. *)
Theorem internal_failure_aborts seed u w :
  internalIPTarget cfg ≠ "" →
  is_ok (detect (internalIPTarget cfg)) = false →
  is_ok (outcome (cycle seed u w)) = false
  ∧ calls (cycle seed u w) = [CallGet (nodeName u)]
  ∧ nodes (final (cycle seed u w)) = nodes w.
Proof.
  intros Ht Hint.
  destruct (cycle_effect seed u w) as (r & w' & t & -> & Hcases).
  unfold outcome, calls, final. simpl.
  destruct Hcases as [(-> & -> & -> & _)|(n & m & tA & tT & _ & _ & Hm & _)]; [done|].
  pose proof (addressMapOf_needs (Addresses (Status n))) as Hneeds.
  rewrite Hm, Hint, bool_decide_false in Hneeds by done. done.
Qed.

(** X9.  When the node cannot be read, and always when the cluster has no
    node of that name, the cycle returns the error of the read wrapped as
    "failed to get node" having sent that one request; it creates no node
    and changes nothing. *)
Theorem fetch_failure_aborts seed u w :
  (nodes w !! nodeName u = None → is_ok (outcome (GetNode u w)) = false)
  ∧ ∀ e, outcome (GetNode u w) = Err e →
      outcome (cycle seed u w) = Err (Wrapf "failed to get node" e)
      ∧ calls (cycle seed u w) = [CallGet (nodeName u)]
      ∧ nodes (final (cycle seed u w)) = nodes w.
Proof.
  destruct (GetNode_run u w) as (r0 & Hrun & Hlook). split.
  - intros Hnone. rewrite Hrun. unfold outcome. simpl.
    destruct r0 as [n|e]; [|done]. specialize (Hlook n eq_refl). congruence.
  - intros e. rewrite reconcile_unfold, Hrun. unfold outcome. simpl.
    by intros ->.
Qed.

(** X10.  When the API refuses the address patch, the cycle stops there:
    it returns that error, wrapped, the taint removal is not attempted, and
    the cluster is as it was. *)
Theorem address_patch_failure_aborts seed u w n addresses e :
  outcome (GetNode u w) = Ok n →
  compute seed (Addresses (Status n)) = Ok addresses →
  addressesEqual (Addresses (Status n)) addresses = false →
  head (tail (faults w)) = Some (Some e) →
  outcome (cycle seed u w)
  = Err (Wrapf "failed to update addresses" (Wrapf "failed to patch node addresses" e))
  ∧ calls (cycle seed u w)
    = [CallGet (nodeName u); CallPatch (nodeName u) (addressPatch addresses) ["status"]]
  ∧ nodes (final (cycle seed u w)) = nodes w.
Proof.
  intros Hget Hc Heq Hfault. rewrite reconcile_unfold.
  destruct (GetNode_run u w) as (r0 & Hrun & _). rewrite Hrun in Hget |- *.
  unfold outcome in Hget. simpl in Hget. subst r0. rewrite Hc, Heq.
  unfold UpdateAddresses, mbind, Api_bind, orWrap, clientPatch, request.
  simpl. by rewrite Hfault.
Qed.

(** X11.  With [--remove-taint=false] a cycle never writes taints: it
    sends at most the read of the node and the address patch, and the taints
    of the node are as they were. *)
Theorem no_taint_removal_when_disabled seed u w :
  removeTaint cfg = false →
  taintWrites (calls (cycle seed u w)) = []
  ∧ length (calls (cycle seed u w)) ≤ 2
  ∧ taintsOf (final (cycle seed u w)) (nodeName u) = taintsOf w (nodeName u).
Proof.
  intros Hoff.
  destruct (cycle_effect seed u w) as (r & w' & t & -> & Hcases).
  unfold calls, final, taintsOf. simpl.
  destruct Hcases as [(-> & -> & _)|(n & m & tA & tT & Hn & _ & _ & -> & HtA & Hrest)].
  { split_and!; [done|simpl; lia|done]. }
  assert (length tA ≤ 1 ∧ taintWrites tA = []) as [HlenA HwA]
    by (destruct HtA as [[_ ->]|[_ ->]]; (split; [simpl; lia|done])).
  simpl in Hrest.
  destruct Hrest as [(_ & -> & _ & ->)|[(_ & -> & _ & ->)|(Hon & _)]];
    [| |congruence].
  - rewrite app_nil_r. split_and!; [done|simpl; lia|done].
  - rewrite app_nil_r, lookup_insert_eq, Hn. split_and!; [done|simpl; lia|done].
Qed.

(** X12.  The requests of a cycle are, in this order and each after the
    first only if the cycle gets that far: the read of the node, the address
    patch, the read of RemoveTaint, the taint patch; all of them name the node
    of the updater, and no other node of the cluster changes. *)
Theorem cycle_requests seed u w :
  (∃ addresses taints,
     let get := CallGet (nodeName u) in
     let patchAddresses := CallPatch (nodeName u) (addressPatch addresses) ["status"] in
     let patchTaints := CallPatch (nodeName u) (taintPatch taints) [] in
     calls (cycle seed u w)
     ∈ [[get]; [get; get]; [get; get; patchTaints];
        [get; patchAddresses]; [get; patchAddresses; get];
        [get; patchAddresses; get; patchTaints]])
  ∧ ∀ name, name ≠ nodeName u →
      nodes (final (cycle seed u w)) !! name = nodes w !! name.
Proof.
  destruct (cycle_effect seed u w) as (r & w' & t & -> & Hcases).
  unfold calls, final. simpl.
  destruct Hcases as [(-> & -> & _)|(n & m & tA & tT & Hn & _ & _ & -> & HtA & Hrest)].
  { split; [|done]. exists [], []. simpl. apply list_elem_of_here. }
  simpl in Hrest. split.
  - destruct HtA as [[_ ->]|[_ ->]];
      destruct Hrest as [(HA & -> & _)|[(_ & -> & _)|(_ & [->|[taints ->]] & _)]];
      try done; simpl;
      first [ exists (mapToSlice seed m), taints | exists (mapToSlice seed m), [] ];
      simpl; rewrite !elem_of_cons; tauto.
  - intros name Hname.
    destruct Hrest as [(_ & _ & _ & ->)|[(_ & _ & _ & ->)|(_ & _ & ->)]];
      [done|by rewrite lookup_insert_ne..].
Qed.

(** X13.  The address map a cycle computes.  It exists exactly when the
    external target resolves and the internal target, if one is set, resolves
    too.  Then every type other than InternalIP and ExternalIP has the value
    of its last fetched entry, or none; InternalIP has the detected internal
    address if an internal target is set and else its last fetched value;
    ExternalIP has the detected external address unless that is the InternalIP
    value, and then it has none, whatever was fetched. *)
Theorem computed_address_map current :
  is_ok (addressMapOf current)
  = (bool_decide (internalIPTarget cfg = "") || is_ok (detect (internalIPTarget cfg)))
    && is_ok (detect (externalIPTarget cfg))
  ∧ ∀ m, addressMapOf current = Ok m →
      (∀ k, k ≠ NodeInternalIP → k ≠ NodeExternalIP → m !! k = mapOf current !! k)
      ∧ m !! NodeInternalIP
        = (if bool_decide (internalIPTarget cfg = "")
           then mapOf current !! NodeInternalIP
           else match detect (internalIPTarget cfg) with
                | Ok internalIP => Some internalIP
                | Err _ => None
                end)
      ∧ ∃ E, detect (externalIPTarget cfg) = Ok E
          ∧ m !! NodeExternalIP
            = if bool_decide (m !! NodeInternalIP = Some E) then None else Some E.
Proof.
  split; [apply addressMapOf_needs|]. intros m Hm. split_and!.
  - intros k Hi He. by eapply addressMapOf_foreign.
  - case_bool_decide as Ht.
    + by eapply addressMapOf_internal_unset.
    + apply addressMapOf_Ok in Hm as (m1 & E & Hint & _ & ->).
      rewrite setExternalIP_lookup_ne by done.
      apply internalStep_Ok in Hint as [[? _]|(_ & i & -> & ->)]; [done|].
      apply lookup_insert_eq.
  - apply addressMapOf_Ok in Hm as (m1 & E & _ & HE & ->).
    exists E. split; [done|].
    rewrite setExternalIP_lookup, (setExternalIP_lookup_ne m1 E NodeInternalIP) by done.
    done.
Qed.

(** X14.  On a node whose fetched addresses repeat no type and hold no
    empty address, a cycle that completes leaves the node with exactly the
    computed address map, one entry per type, whether it had to write or not. *)
Theorem completed_cycle_reaches_computed seed u w n :
  outcome (GetNode u w) = Ok n →
  NoDup (Type_ <$> Addresses (Status n)) →
  Forall (λ x, Address x ≠ "") (Addresses (Status n)) →
  outcome (cycle seed u w) = Ok () →
  ∃ m addresses,
    addressMapOf (Addresses (Status n)) = Ok m
    ∧ addressesOf (final (cycle seed u w)) (nodeName u) = Some addresses
    ∧ addresses ≡ₚ mapToSlice seed m
    ∧ mapOf addresses = m.
Proof.
  intros Hget Hnd Hne.
  destruct (cycle_effect seed u w) as (r & w' & t & -> & Hcases).
  unfold outcome at 1, final, addressesOf. simpl. intros ->.
  destruct Hcases as [(_ & _ & ? & _)|(n0 & m & tA & tT & _ & Hget0 & Hm & _ & _ & Hrest)];
    [done|].
  rewrite Hget in Hget0. injection Hget0 as <-. simpl in Hrest.
  exists m,
    (if addressesEqual (Addresses (Status n)) (mapToSlice seed m)
     then Addresses (Status n) else mapToSlice seed m).
  split; [done|]. split.
  { destruct Hrest as [(_ & _ & ? & _)|[(_ & _ & _ & ->)|(_ & _ & ->)]];
      [done|by rewrite lookup_insert_eq..]. }
  destruct (addressesEqual (Addresses (Status n)) (mapToSlice seed m)) eqn:Heq.
  - apply addressesEqual_sound in Heq as Hp; [|done..]. split; [done|].
    by rewrite (mapOf_Permutation _ _ Hnd Hp), mapOf_mapToSlice.
  - split; [done|]. apply mapOf_mapToSlice.
Qed.

(** What every cycle keeps, whatever its result: the other nodes, the
    absence of the node, and on the node the taints of other keys, in their
    order, and the map entries of the other address types. *)
Lemma cycle_keeps seed u w :
  (∀ name, name ≠ nodeName u →
     nodes (final (cycle seed u w)) !! name = nodes w !! name)
  ∧ (nodes w !! nodeName u = None →
     nodes (final (cycle seed u w)) !! nodeName u = None)
  ∧ ∀ n, nodes w !! nodeName u = Some n →
      ∃ n', nodes (final (cycle seed u w)) !! nodeName u = Some n'
        ∧ filter (λ t, Key t ≠ TaintKey) (Taints (Spec n'))
          = filter (λ t, Key t ≠ TaintKey) (Taints (Spec n))
        ∧ ∀ k, k ≠ NodeInternalIP → k ≠ NodeExternalIP →
            mapOf (Addresses (Status n')) !! k = mapOf (Addresses (Status n)) !! k.
Proof.
  destruct (cycle_effect seed u w) as (r & w' & t & -> & Hcases).
  unfold final. simpl.
  destruct Hcases as [(_ & -> & _)|(n & m & tA & tT & Hn & _ & Hm & _ & _ & Hrest)].
  { split; [done|]. split; [done|]. intros n Hn. by exists n. }
  simpl in Hrest.
  assert (∀ k, k ≠ NodeInternalIP → k ≠ NodeExternalIP →
            mapOf (if addressesEqual (Addresses (Status n)) (mapToSlice seed m)
                   then Addresses (Status n) else mapToSlice seed m) !! k
            = mapOf (Addresses (Status n)) !! k) as Hmap.
  { intros k Hi He. destruct (addressesEqual _ _); [done|].
    rewrite mapOf_mapToSlice. by eapply addressMapOf_foreign. }
  destruct Hrest as [(_ & _ & _ & ->)|[(_ & _ & _ & ->)|(_ & _ & ->)]].
  - split; [done|]. split; [done|]. intros n0 Hn0. by exists n0.
  - split; [intros; by rewrite lookup_insert_ne|]. split; [congruence|].
    intros n0 Hn0. rewrite Hn in Hn0. injection Hn0 as <-.
    eexists. rewrite lookup_insert_eq. by split.
  - split; [intros; by rewrite lookup_insert_ne|]. split; [congruence|].
    intros n0 Hn0. rewrite Hn in Hn0. injection Hn0 as <-.
    eexists. rewrite lookup_insert_eq. split; [done|].
    destruct (is_ok r); [|by split]. split; [|done].
    apply foreign_withoutFirstTaint.
Qed.
End CycleEffects.

(** ** cmd/local-ccm/main.go: the loop *)

Lemma preserved_refl name w : preserved name w w.
Proof.
  split; [done|]. split; [done|]. intros n Hn. by exists n.
Qed.

Lemma preserved_trans name w1 w2 w3 :
  preserved name w1 w2 → preserved name w2 w3 → preserved name w1 w3.
Proof.
  intros (Ho1 & Hn1 & Hk1) (Ho2 & Hn2 & Hk2). split_and!.
  - intros other Hother. by rewrite Ho2, Ho1.
  - intros Hnone. by apply Hn2, Hn1.
  - intros n Hn. destruct (Hk1 n Hn) as (n' & Hn' & Ht1 & Ha1).
    destruct (Hk2 n' Hn') as (n'' & Hn'' & Ht2 & Ha2).
    exists n''. split; [done|]. split; [by rewrite Ht2|].
    intros k Hi He. by rewrite Ha2, Ha1.
Qed.

Lemma cloudTaints_iter k taints :
  cloudTaints (Nat.iter k withoutFirstTaint taints) = cloudTaints taints - k.
Proof.
  induction k as [|k IH]; simpl; [lia|].
  rewrite cloudTaints_withoutFirstTaint, IH. lia.
Qed.

Section CommandProperties.
Context {IP RestConfig Clientset : Type}.
Variable ParseIP : string → option IP.
Variable IPString : IP → string.
Variable BuildConfigFromFlags : string → string → result RestConfig.
Variable InClusterConfig : result RestConfig.
Variable NewForConfig : RestConfig → result Clientset.
Variable flags : Flags.

Local Abbreviation loop := (reconcileLoop ParseIP IPString flags).
Local Abbreviation cycleAt :=
  (λ tick : Tick IP,
     reconcile ParseIP (routeTable tick) IPString (flagConfig flags) (rangeSeed tick)).
Local Abbreviation client :=
  (createKubernetesClient BuildConfigFromFlags InClusterConfig NewForConfig).
Local Abbreviation command :=
  (main ParseIP IPString BuildConfigFromFlags InClusterConfig NewForConfig flags).

Lemma loop_cons tick rest u w :
  loop (tick :: rest) u w
  = if runOnce flags then
      mkProcess (Some (OsExit (if is_ok (outcome (cycleAt tick u w)) then 0 else 1)))
        (final (cycleAt tick u w)) (calls (cycleAt tick u w))
        [outcome (cycleAt tick u w)] []
    else
      let p := loop rest u (final (cycleAt tick u w)) in
      mkProcess (exit p) (cluster p) (calls (cycleAt tick u w) ++ requests p)
        (outcome (cycleAt tick u w) :: cycles p)
        (reconcileInterval flags :: sleeps p).
Proof.
  simpl. by destruct (reconcile _ _ _ _ _ _ _) as [[r w1] t1].
Qed.

(** X15.  How the command ends.  Without a node name, or when the client
    cannot be created, it is fatal before any request.  With [--run-once] it
    runs one cycle, does not sleep, and exits with 0 if the cycle returned nil
    and with 1 if it returned an error.  Otherwise it never exits: however
    long it is watched, it has run one cycle per pass, failed or not, and
    slept the reconcile interval after each. *)
Theorem main_exit ticks w :
  let p := command ticks w in
  if bool_decide (flagNodeName flags = "") || negb (is_ok (client (kubeconfig flags)))
  then (∃ msg, exit p = Some (KlogFatal msg))
       ∧ requests p = [] ∧ cycles p = [] ∧ sleeps p = [] ∧ cluster p = w
  else if runOnce flags then
    sleeps p = []
    ∧ match ticks with
      | [] => exit p = None ∧ cycles p = []
      | tick :: _ =>
          let run := cycleAt tick (NewUpdater (flagNodeName flags)) w in
          exit p = Some (OsExit (if is_ok (outcome run) then 0 else 1))
          ∧ cycles p = [outcome run]
          ∧ requests p = calls run ∧ cluster p = final run
      end
  else
    exit p = None
    ∧ length (cycles p) = length ticks
    ∧ sleeps p = replicate (length ticks) (reconcileInterval flags).
Proof.
  unfold main. case_bool_decide as Hname; simpl.
  { split; [eauto|done]. }
  destruct (client (kubeconfig flags)) as [c|e]; simpl.
  2: { split; [eauto|done]. }
  destruct (runOnce flags) eqn:Honce.
  - destruct ticks as [|tick rest]; [done|].
    rewrite loop_cons, Honce. simpl. done.
  - generalize (NewUpdater (flagNodeName flags)). intros u. revert w.
    induction ticks as [|tick rest IH]; intros w; [done|].
    rewrite loop_cons, Honce. simpl.
    destruct (IH (final (cycleAt tick u w))) as (-> & -> & ->). done.
Qed.

Lemma cycle_names tick u w :
  Forall (λ c, callName c = nodeName u) (calls (cycleAt tick u w)).
Proof.
  destruct (cycle_effect ParseIP (routeTable tick) IPString (flagConfig flags)
              (rangeSeed tick) u w) as (r & w' & t & -> & Hcases).
  unfold calls. simpl.
  destruct Hcases as [(-> & _)|(n & m & tA & tT & _ & _ & _ & -> & HtA & Hrest)].
  { by repeat constructor. }
  simpl in Hrest. constructor; [done|]. apply Forall_app. split.
  - destruct HtA as [[_ ->]|[_ ->]]; by repeat constructor.
  - destruct Hrest as [(_ & -> & _)|[(_ & -> & _)|(_ & [->|[taints ->]] & _)]];
      by repeat constructor.
Qed.

Lemma loop_preserved ticks u w :
  preserved (nodeName u) w (cluster (loop ticks u w))
  ∧ Forall (λ c, callName c = nodeName u) (requests (loop ticks u w)).
Proof.
  revert w. induction ticks as [|tick rest IH]; intros w.
  { split; [apply preserved_refl|constructor]. }
  pose proof (cycle_keeps ParseIP (routeTable tick) IPString (flagConfig flags)
                (rangeSeed tick) u w) as Hkeeps.
  pose proof (cycle_names tick u w) as Hnames.
  rewrite loop_cons. destruct (runOnce flags); simpl; [done|].
  destruct (IH (final (cycleAt tick u w))) as [Hrest Hnames'].
  split; [by eapply preserved_trans|]. by apply Forall_app.
Qed.

(** X16.  However many cycles the loop runs and whatever their results:
    every request names the node of the updater; no other node of the cluster
    changes and the node is not created if it is absent; the node keeps its
    taints with a key other than the cloud provider one, in their order, and,
    for every address type other than InternalIP and ExternalIP, the value its
    address map has for that type. *)
Theorem loop_preserves ticks u w :
  let p := loop ticks u w in
  Forall (λ c, callName c = nodeName u) (requests p)
  ∧ (∀ other, other ≠ nodeName u → nodes (cluster p) !! other = nodes w !! other)
  ∧ (nodes w !! nodeName u = None → nodes (cluster p) !! nodeName u = None)
  ∧ ∀ n, nodes w !! nodeName u = Some n →
      ∃ n', nodes (cluster p) !! nodeName u = Some n'
        ∧ filter (λ t, Key t ≠ TaintKey) (Taints (Spec n'))
          = filter (λ t, Key t ≠ TaintKey) (Taints (Spec n))
        ∧ ∀ k, k ≠ NodeInternalIP → k ≠ NodeExternalIP →
            mapOf (Addresses (Status n')) !! k = mapOf (Addresses (Status n)) !! k.
Proof.
  destruct (loop_preserved ticks u w) as [Hkept Hnames]. by split.
Qed.

Lemma computeAddressMap_routes (R1 R2 : IP → result (list (Route IP))) cfg current :
  DetectIP ParseIP R1 IPString (internalIPTarget cfg)
  = DetectIP ParseIP R2 IPString (internalIPTarget cfg) →
  DetectIP ParseIP R1 IPString (externalIPTarget cfg)
  = DetectIP ParseIP R2 IPString (externalIPTarget cfg) →
  computeAddressMap ParseIP R1 IPString cfg current
  = computeAddressMap ParseIP R2 IPString cfg current.
Proof.
  intros Hi He. unfold computeAddressMap, detectInternalIP, detectExternalIP.
  by rewrite Hi, He.
Qed.

Lemma settled_nodes R cfg name w w' :
  nodes w' = nodes w →
  settled ParseIP R IPString cfg name w → settled ParseIP R IPString cfg name w'.
Proof. unfold settled. by intros ->. Qed.

Lemma cycle_settles R cfg seed u w :
  outcome (reconcile ParseIP R IPString cfg seed u w) = Ok () →
  settled ParseIP R IPString cfg (nodeName u)
    (final (reconcile ParseIP R IPString cfg seed u w)).
Proof.
  destruct (cycle_effect ParseIP R IPString cfg seed u w) as (r & w' & t & -> & Hcases).
  unfold outcome, final. simpl. intros ->.
  destruct Hcases as [(_ & _ & ? & _)|(n & m & tA & tT & Hn & _ & Hm & _ & _ & Hrest)];
    [done|].
  simpl in Hrest.
  assert (∃ n', nodes w' !! nodeName u = Some n'
            ∧ Addresses (Status n')
              = if addressesEqual (Addresses (Status n)) (mapToSlice seed m)
                then Addresses (Status n) else mapToSlice seed m) as (n' & Hn' & Ha').
  { destruct Hrest as [(_ & _ & ? & _)|[(_ & _ & _ & ->)|(_ & _ & ->)]];
      [done|eexists; by rewrite lookup_insert_eq..]. }
  intros n1 Hn1. rewrite Hn' in Hn1. injection Hn1 as <-. rewrite Ha'.
  exists m.
  destruct (addressesEqual (Addresses (Status n)) (mapToSlice seed m)) eqn:Heq.
  - split; [done|]. intros seed'. rewrite <- Heq. apply addressesEqual_mapOf.
    + by rewrite !length_mapToSlice.
    + by rewrite !mapOf_mapToSlice.
  - split; [by eapply addressMapOf_stable|]. intros seed'.
    rewrite <- (addressesEqual_mapToSlice seed m) at 1. apply addressesEqual_mapOf.
    + by rewrite !length_mapToSlice.
    + by rewrite !mapOf_mapToSlice.
Qed.

Lemma cycle_of_settled R R' cfg seed u w :
  DetectIP ParseIP R' IPString (internalIPTarget cfg)
  = DetectIP ParseIP R IPString (internalIPTarget cfg) →
  DetectIP ParseIP R' IPString (externalIPTarget cfg)
  = DetectIP ParseIP R IPString (externalIPTarget cfg) →
  settled ParseIP R IPString cfg (nodeName u) w →
  addressWrites (calls (reconcile ParseIP R' IPString cfg seed u w)) = []
  ∧ settled ParseIP R IPString cfg (nodeName u)
      (final (reconcile ParseIP R' IPString cfg seed u w)).
Proof.
  intros Hi He Hset.
  destruct (cycle_effect ParseIP R' IPString cfg seed u w) as (r & w' & t & -> & Hcases).
  unfold calls, final. simpl.
  destruct Hcases as [(-> & Hw' & _)|(n & m & tA & tT & Hn & _ & Hm & -> & HtA & Hrest)].
  { split; [done|]. by eapply settled_nodes. }
  destruct (Hset n Hn) as (m0 & Hm0 & Heq).
  rewrite (computeAddressMap_routes R' R cfg _ Hi He), Hm0 in Hm. injection Hm as <-.
  simpl in Hrest. rewrite Heq in Hrest.
  destruct HtA as [[_ ->]|[HtA _]]; [|by rewrite Heq in HtA].
  assert (addressWrites tT = [] ∧ ∃ n', nodes w' !! nodeName u = Some n'
            ∧ Addresses (Status n') = Addresses (Status n)) as [HtT (n' & Hn' & Ha')].
  { destruct Hrest as [(? & _)|[(_ & -> & _ & ->)|(_ & HtT & ->)]]; [done| |].
    - split; [done|]. eexists. by rewrite lookup_insert_eq.
    - split; [by destruct HtT as [->|[taints ->]]|].
      eexists. rewrite lookup_insert_eq. split; [done|]. by destruct (is_ok r). }
  split; [done|].
  intros n1 Hn1. rewrite Hn' in Hn1. injection Hn1 as <-. rewrite Ha'. eauto.
Qed.

Lemma loop_of_settled R ticks u w :
  Forall (λ t : Tick IP,
            DetectIP ParseIP (routeTable t) IPString (internalIPTarget (flagConfig flags))
            = DetectIP ParseIP R IPString (internalIPTarget (flagConfig flags))
            ∧ DetectIP ParseIP (routeTable t) IPString (externalIPTarget (flagConfig flags))
              = DetectIP ParseIP R IPString (externalIPTarget (flagConfig flags))) ticks →
  settled ParseIP R IPString (flagConfig flags) (nodeName u) w →
  addressWrites (requests (loop ticks u w)) = [].
Proof.
  intros Hsame. revert w. induction Hsame as [|tick rest [Hi He] _ IH]; intros w Hset.
  { done. }
  destruct (cycle_of_settled R (routeTable tick) (flagConfig flags) (rangeSeed tick)
              u w Hi He Hset) as [Hnone Hset'].
  rewrite loop_cons. destruct (runOnce flags); simpl; [done|].
  by rewrite addressWrites_app, Hnone, IH.
Qed.

(** X17.  Steady state.  Once a cycle has completed, the loop writes no
    addresses in any later cycle, however many there are and whether they
    succeed or fail, as long as the targets resolve as they did in that
    cycle; the routing table may change otherwise, and so may the order in which
    the address map is walked and the answers of the API. *)
Theorem loop_steady_state tick ticks u w0 w :
  outcome (cycleAt tick u w0) = Ok () →
  nodes w = nodes (final (cycleAt tick u w0)) →
  Forall (λ t : Tick IP,
            DetectIP ParseIP (routeTable t) IPString (internalIPTarget (flagConfig flags))
            = DetectIP ParseIP (routeTable tick) IPString
                (internalIPTarget (flagConfig flags))
            ∧ DetectIP ParseIP (routeTable t) IPString (externalIPTarget (flagConfig flags))
              = DetectIP ParseIP (routeTable tick) IPString
                  (externalIPTarget (flagConfig flags))) ticks →
  addressWrites (requests (loop ticks u w)) = [].
Proof.
  intros Hok Hw Hsame. eapply loop_of_settled; [done|].
  eapply settled_nodes; [done|]. by apply cycle_settles.
Qed.

Lemma cycle_taints R cfg seed u w taints :
  removeTaint cfg = true →
  outcome (reconcile ParseIP R IPString cfg seed u w) = Ok () →
  taintsOf w (nodeName u) = Some taints →
  taintsOf (final (reconcile ParseIP R IPString cfg seed u w)) (nodeName u)
  = Some (withoutFirstTaint taints).
Proof.
  intros Hon.
  destruct (cycle_effect ParseIP R IPString cfg seed u w) as (r & w' & t & -> & Hcases).
  unfold outcome, final, taintsOf. simpl. intros ->.
  destruct Hcases as [(_ & _ & ? & _)|(n & m & tA & tT & Hn & _ & _ & _ & _ & Hrest)];
    [done|].
  rewrite Hn. intros [= <-]. simpl in Hrest.
  destruct Hrest as [(_ & _ & ? & _)|[(? & _)|(_ & _ & ->)]]; [done|congruence|].
  by rewrite lookup_insert_eq.
Qed.

(** X18.  With [--remove-taint], as long as every cycle completes, each
    cycle takes one taint with the cloud provider key off the node, the first
    that is left: after [k] cycles the node has its taints minus the first [k]
    of them, so none is left once there have been as many cycles as there were
    such taints. *)
Theorem loop_clears_taints ticks u w taints :
  let p := loop ticks u w in
  removeTaint (flagConfig flags) = true →
  taintsOf w (nodeName u) = Some taints →
  Forall (λ r, is_ok r = true) (cycles p) →
  taintsOf (cluster p) (nodeName u)
  = Some (Nat.iter (length (cycles p)) withoutFirstTaint taints)
  ∧ cloudTaints (Nat.iter (length (cycles p)) withoutFirstTaint taints)
    = cloudTaints taints - length (cycles p).
Proof.
  intros p Hon Hts Hall. split; [|apply cloudTaints_iter].
  subst p. revert w taints Hts Hall.
  induction ticks as [|tick rest IH]; intros w taints Hts; [done|].
  rewrite loop_cons. destruct (runOnce flags); simpl.
  - intros [Hok _]%Forall_cons.
    destruct (outcome (cycleAt tick u w)) as [[]|e] eqn:Hout; [|done].
    by eapply cycle_taints.
  - intros [Hok Hrest]%Forall_cons.
    destruct (outcome (cycleAt tick u w)) as [[]|e] eqn:Hout; [|done].
    rewrite (IH _ (withoutFirstTaint taints)); [|by eapply cycle_taints|done].
    by rewrite <- Nat.iter_succ_r.
Qed.
End CommandProperties.

(** * The further properties at concrete inputs *)

Lemma RemoveTaint_then_noop_witness :
  taintsOf exEndToEnd "node1" = Some [exUninitialized "NoSchedule"]
  ∧ outcome (RemoveTaint exUpdater exEndToEnd) = Ok ()
  ∧ calls (RemoveTaint exUpdater (final (RemoveTaint exUpdater exEndToEnd)))
    = [CallGet "node1"]
  ∧ nodes (final (RemoveTaint exUpdater (final (RemoveTaint exUpdater exEndToEnd))))
    = nodes (final (RemoveTaint exUpdater exEndToEnd)).
Proof.
  split; [reflexivity|]. split; [reflexivity|].
  apply (RemoveTaint_then_noop exUpdater exEndToEnd
           (final (RemoveTaint exUpdater exEndToEnd)) [exUninitialized "NoSchedule"]).
  - reflexivity.
  - vm_compute. lia.
  - reflexivity.
  - reflexivity.
Defined.

Lemma address_map_round_trip_witness :
  let a := [mkNodeAddress "Hostname" "node1"; mkNodeAddress "InternalIP" "192.168.1.1"] in
  mapOf (mapToSlice [1] (mapOf a)) = mapOf a
  ∧ mapToSlice [1] (mapOf a) ≡ₚ a.
Proof.
  intros a.
  destruct address_map_round_trip as [Hmap Hlist].
  split; [apply Hmap|]. apply Hlist. by_compute.
Defined.

Lemma addressesEqual_unordered_witness :
  let a := [mkNodeAddress "Hostname" "node1"; mkNodeAddress "InternalIP" "192.168.1.1"] in
  let a' := [mkNodeAddress "InternalIP" "192.168.1.1"; mkNodeAddress "Hostname" "node1"] in
  addressesEqual a a = addressesEqual a' a.
Proof.
  intros a a'.
  apply (addressesEqual_unordered a a' a a).
  - by_compute.
  - by_compute.
  - apply perm_swap.
  - reflexivity.
Defined.

Lemma addressesEqual_true_covers_witness :
  let a := [mkNodeAddress "InternalIP" "192.168.1.1"; mkNodeAddress "InternalIP" "fd00::1";
            mkNodeAddress "Hostname" "node1"] in
  let b := [mkNodeAddress "ExternalIP" "203.0.113.10"; mkNodeAddress "InternalIP" "fd00::1";
            mkNodeAddress "Hostname" "node1"] in
  length a = length b
  ∧ mapOf b !! "InternalIP" = Some "fd00::1"
  ∧ mkNodeAddress "InternalIP" "fd00::1" ∈ b.
Proof.
  intros a b.
  apply (addressesEqual_true_covers a b "InternalIP" "fd00::1").
  - reflexivity.
  - reflexivity.
  - discriminate.
Defined.

Lemma internal_failure_aborts_witness :
  is_ok (outcome (exCycle exInternalNoRoute [] exEndToEnd)) = false
  ∧ calls (exCycle exInternalNoRoute [] exEndToEnd) = [CallGet "node1"]
  ∧ nodes (final (exCycle exInternalNoRoute [] exEndToEnd)) = nodes exEndToEnd.
Proof.
  apply (internal_failure_aborts exParseIP (exRouteGet exTable) id exInternalNoRoute
           [] exUpdater exEndToEnd).
  - discriminate.
  - reflexivity.
Defined.

Lemma fetch_failure_aborts_witness :
  is_ok (outcome (GetNode exUpdater exNoNode)) = false
  ∧ outcome (exCycle exExternalOnly [] exNoNode)
    = Err (Wrapf "failed to get node" (errNotFound "node1"))
  ∧ calls (exCycle exExternalOnly [] exNoNode) = [CallGet "node1"]
  ∧ nodes (final (exCycle exExternalOnly [] exNoNode)) = nodes exNoNode.
Proof.
  destruct (fetch_failure_aborts exParseIP (exRouteGet exTable) id exExternalOnly
              [] exUpdater exNoNode) as [Hnone Herr].
  split; [apply Hnone; reflexivity|].
  apply (Herr (errNotFound "node1")). reflexivity.
Defined.

Lemma address_patch_failure_aborts_witness :
  outcome (exCycle exExternalOnly [] exRefused)
  = Err (Wrapf "failed to update addresses"
           (Wrapf "failed to patch node addresses"
              (Errorf "the server is currently unable to handle the request")))
  ∧ calls (exCycle exExternalOnly [] exRefused)
    = [CallGet "node1";
       CallPatch "node1"
         (addressPatch [mkNodeAddress "ExternalIP" "203.0.113.10";
                        mkNodeAddress "Hostname" "node1"]) ["status"]]
  ∧ nodes (final (exCycle exExternalOnly [] exRefused)) = nodes exRefused.
Proof.
  apply (address_patch_failure_aborts exParseIP (exRouteGet exTable) id exExternalOnly
           [] exUpdater exRefused (exNode exRefused)); reflexivity.
Defined.

Lemma no_taint_removal_when_disabled_witness :
  taintWrites (calls (exCycle exKeepTaint [] exEndToEnd)) = []
  ∧ length (calls (exCycle exKeepTaint [] exEndToEnd)) ≤ 2
  ∧ taintsOf (final (exCycle exKeepTaint [] exEndToEnd)) "node1"
    = taintsOf exEndToEnd "node1".
Proof.
  apply (no_taint_removal_when_disabled exParseIP (exRouteGet exTable) id exKeepTaint
           [] exUpdater exEndToEnd).
  reflexivity.
Defined.

Lemma cycle_requests_witness :
  calls (exCycle exExternalOnly [] exEndToEnd)
  = [CallGet "node1";
     CallPatch "node1"
       (addressPatch [mkNodeAddress "ExternalIP" "203.0.113.10";
                      mkNodeAddress "Hostname" "node1"]) ["status"];
     CallGet "node1";
     CallPatch "node1" (taintPatch []) []]
  ∧ nodes (final (exCycle exExternalOnly [] exEndToEnd)) !! "node2"
    = nodes exEndToEnd !! "node2".
Proof.
  split; [reflexivity|].
  destruct (cycle_requests exParseIP (exRouteGet exTable) id exExternalOnly
              [] exUpdater exEndToEnd) as [_ Hother].
  apply Hother. discriminate.
Defined.

Lemma computed_address_map_witness :
  let current := [mkNodeAddress "Hostname" "node1";
                  mkNodeAddress "InternalIP" "192.168.1.1";
                  mkNodeAddress "ExternalIP" "198.51.100.7"] in
  ∃ m, computeAddressMap exParseIP (exRouteGet exTable) id exSameRoute current = Ok m
    ∧ m !! "Hostname" = Some "node1"
    ∧ m !! NodeInternalIP = Some "10.0.0.5"
    ∧ m !! NodeExternalIP = None.
Proof.
  intros current.
  destruct (computed_address_map exParseIP (exRouteGet exTable) id exSameRoute current)
    as [Hok Hmap].
  destruct (computeAddressMap exParseIP (exRouteGet exTable) id exSameRoute current)
    as [m|e] eqn:Hm; [|discriminate Hok].
  exists m. split; [reflexivity|].
  destruct (Hmap m eq_refl) as (Hother & Hint & E & HE & Hext).
  vm_compute in HE. injection HE as <-.
  split_and!.
  - rewrite Hother by discriminate. reflexivity.
  - rewrite Hint. reflexivity.
  - rewrite Hext, Hint. reflexivity.
Defined.

Lemma completed_cycle_reaches_computed_witness :
  ∃ m addresses,
    computeAddressMap exParseIP (exRouteGet exTable) id exExternalOnly
      (Addresses (Status (exNode exKubelet))) = Ok m
    ∧ addressesOf (final (exCycle exExternalOnly [] exKubelet)) "node1" = Some addresses
    ∧ addresses ≡ₚ mapToSlice [] m
    ∧ mapOf addresses = m.
Proof.
  apply (completed_cycle_reaches_computed exParseIP (exRouteGet exTable) id exExternalOnly
           [] exUpdater exKubelet (exNode exKubelet)).
  - reflexivity.
  - by_compute.
  - by_compute.
  - reflexivity.
Defined.

Lemma loop_preserves_witness :
  let p := exLoop (defaultFlags "node1") [exTick; exTickLater; exTick] exTainted in
  Forall (λ c, callName c = "node1") (requests p)
  ∧ nodes (cluster p) !! "node2" = nodes exTainted !! "node2"
  ∧ ∃ n', nodes (cluster p) !! "node1" = Some n'
      ∧ filter (λ t, Key t ≠ TaintKey) (Taints (Spec n')) = [exControlPlane]
      ∧ mapOf (Addresses (Status n')) !! "Hostname" = Some "node1".
Proof.
  intros p.
  destruct (loop_preserves exParseIP id (defaultFlags "node1")
              [exTick; exTickLater; exTick] exUpdater exTainted)
    as (Hnames & Hother & _ & Hnode).
  split; [exact Hnames|]. split; [apply Hother; discriminate|].
  destruct (Hnode (exNode exTainted) eq_refl) as (n' & Hn' & Htaints & Haddr).
  exists n'. split; [exact Hn'|]. split; [exact Htaints|].
  rewrite Haddr by discriminate. reflexivity.
Defined.

Lemma loop_steady_state_witness :
  outcome (exCycle exExternalOnly [] exEndToEnd) = Ok ()
  ∧ addressWrites (calls (exCycle exExternalOnly [] exEndToEnd))
    = [[mkNodeAddress "ExternalIP" "203.0.113.10"; mkNodeAddress "Hostname" "node1"]]
  ∧ addressWrites
      (requests (exLoop (defaultFlags "node1") [exTickLater; exTick; exTickLater]
                   (final (exCycle exExternalOnly [] exEndToEnd))))
    = [].
Proof.
  split; [reflexivity|]. split; [reflexivity|].
  apply (loop_steady_state exParseIP id (defaultFlags "node1") exTick
           [exTickLater; exTick; exTickLater] exUpdater exEndToEnd).
  - reflexivity.
  - reflexivity.
  - repeat constructor.
Defined.

Lemma loop_clears_taints_witness :
  let p := exLoop (defaultFlags "node1") [exTick; exTickLater; exTick] exTainted in
  cycles p = [Ok (); Ok (); Ok ()]
  ∧ taintsOf (cluster p) "node1" = Some [exControlPlane]
  ∧ cloudTaints [exControlPlane] = 0.
Proof.
  intros p. split; [reflexivity|].
  destruct (loop_clears_taints exParseIP id (defaultFlags "node1")
              [exTick; exTickLater; exTick] exUpdater exTainted
              [exControlPlane; exUninitialized "NoSchedule"; exUninitialized "NoExecute"])
    as [Htaints Hcount].
  - reflexivity.
  - reflexivity.
  - by_compute.
  - split; [exact Htaints|]. exact Hcount.
Defined.

(** The command at work: one pass with [--run-once], and three passes
    without. *)
Example main_run_once :
  exit (exMain (mkFlags "node1" "" exExternalOnly true 10000000000)
          [exTick; exTick] exEndToEnd) = Some (OsExit 0)
  ∧ exit (exMain (mkFlags "node1" "" exNoRoute true 10000000000)
            [exTick; exTick] exEndToEnd) = Some (OsExit 1)
  ∧ exit (exMain (defaultFlags "") [exTick] exEndToEnd)
    = Some (KlogFatal "--node-name or NODE_NAME environment variable must be set")
  ∧ exit (exMain (mkFlags "node1" "/missing" exExternalOnly true 10000000000)
            [exTick] exEndToEnd)
    = Some (KlogFatal ("Failed to create Kubernetes client: "
                       +:+ "failed to create rest config: "
                       +:+ "stat /missing: no such file or directory"))
  ∧ exit (exMain (defaultFlags "node1") [exTick; exTick; exTick] exEndToEnd) = None
  ∧ sleeps (exMain (defaultFlags "node1") [exTick; exTick; exTick] exEndToEnd)
    = [10000000000; 10000000000; 10000000000]%Z.
Proof. by vm_compute. Qed.

(** ** charts/local-ccm/templates/_helpers.tpl *)

Lemma helm_trunc_length c s : String.length (Helm.trunc c s) ≤ c.
Proof.
  revert s. induction c as [|c IH]; intros [|a s]; simpl; try lia.
  specialize (IH s). lia.
Qed.

Lemma helm_trunc_short c s : String.length s ≤ c → Helm.trunc c s = s.
Proof.
  revert s. induction c as [|c IH]; intros [|a s]; simpl; try done; try lia.
  intros Hlen. f_equal. apply IH. lia.
Qed.

Lemma helm_trimSuffix_length suffix s :
  String.length (Helm.trimSuffix suffix s) ≤ String.length s.
Proof.
  induction s as [|a s IH]; cbn [Helm.trimSuffix].
  - destruct (String.eqb "" suffix); simpl; lia.
  - destruct (String.eqb (String a s) suffix); simpl; lia.
Qed.

(** [Helm.trimSuffix] is [strings.TrimSuffix]: a string that ends with the
    suffix loses it, any other string is returned as it is. *)
Lemma helm_trimSuffix_spec suffix s :
  (∃ t, s = t +:+ suffix ∧ Helm.trimSuffix suffix s = t)
  ∨ (Helm.trimSuffix suffix s = s ∧ ∀ t, s ≠ t +:+ suffix).
Proof.
  induction s as [|a s IH]; cbn [Helm.trimSuffix].
  - destruct (String.eqb_spec "" suffix) as [<-|Hne].
    + left. by exists "".
    + right. split; [done|]. intros [|b t] Heq; simpl in Heq; [done|discriminate].
  - destruct (String.eqb_spec (String a s) suffix) as [<-|Hne].
    + left. by exists "".
    + destruct IH as [(t & -> & ->)|[-> Hno]].
      * left. by exists (String a t).
      * right. split; [done|]. intros [|b t] Heq; simpl in Heq; [done|].
        injection Heq as -> Heq. by eapply Hno.
Qed.

Lemma helm_trunc_bytes c s x :
  x ∈ String.list_ascii_of_string (Helm.trunc c s) → x ∈ String.list_ascii_of_string s.
Proof.
  revert s. induction c as [|c IH]; intros [|a s]; simpl; try (by intros ?%elem_of_nil).
  rewrite !elem_of_cons. intros [->|Hin]; [by left|]. right. by apply IH.
Qed.

Lemma helm_trimSuffix_bytes suffix s x :
  x ∈ String.list_ascii_of_string (Helm.trimSuffix suffix s) →
  x ∈ String.list_ascii_of_string s.
Proof.
  induction s as [|a s IH]; cbn [Helm.trimSuffix].
  - by destruct (String.eqb "" suffix).
  - destruct (String.eqb (String a s) suffix); simpl; [by intros ?%elem_of_nil|].
    rewrite !elem_of_cons. intros [->|Hin]; [by left|]. right. by apply IH.
Qed.

Lemma helm_replacePlus_bytes s :
  Helm.byteOf "+" ∉ String.list_ascii_of_string (Helm.replacePlus s).
Proof.
  induction s as [|a s IH];
    cbn [Helm.replacePlus String.list_ascii_of_string]; [apply not_elem_of_nil|].
  apply not_elem_of_cons. split; [|done].
  destruct (Ascii.eqb_spec a (Helm.byteOf "+")) as [->|Hne];
    [discriminate|congruence].
Qed.

Lemma helm_contains_self s : Helm.contains s s = true.
Proof.
  assert (String.prefix s s = true) as Hp.
  { induction s as [|a s IH]; simpl; [done|].
    destruct (Ascii.ascii_dec a a); [done|congruence]. }
  destruct s; simpl in *; [done|]. by rewrite Hp.
Qed.

(** X19.  The names the chart derives, the name, the full name and the
    chart label, are at most 63 bytes long, whatever the chart, the release
    and the overrides are. *)
Theorem helm_names_fit c :
  String.length (Helm.name c) ≤ 63
  ∧ String.length (Helm.fullname c) ≤ 63
  ∧ String.length (Helm.chart c) ≤ 63.
Proof.
  assert (∀ s, String.length (Helm.trimSuffix "-" (Helm.trunc 63 s)) ≤ 63) as Hfit.
  { intros s. pose proof (helm_trimSuffix_length "-" (Helm.trunc 63 s)).
    pose proof (helm_trunc_length 63 s). lia. }
  unfold Helm.name, Helm.fullname, Helm.chart. split_and!; [done| |done].
  destruct (negb _); [done|]. by destruct (Helm.contains _ _).
Qed.

(** X20.  The chart label holds no "+", whatever the version of the chart:
    every "+" of the name and the version becomes "_", and cutting the label
    to length brings none back. *)
Theorem helm_chart_label_no_plus c :
  Helm.byteOf "+" ∉ String.list_ascii_of_string (Helm.chart c).
Proof.
  unfold Helm.chart. intros Hin%helm_trimSuffix_bytes%helm_trunc_bytes.
  by eapply helm_replacePlus_bytes.
Qed.

(** X21.  An override that is set, is at most 63 bytes long and does not
    end with "-" is used as it is: [nameOverride] as the name and
    [fullnameOverride] as the full name, whatever the release is called. *)
Theorem helm_override_as_is c :
  (Helm.nameOverride c ≠ "" →
   String.length (Helm.nameOverride c) ≤ 63 →
   (∀ t, Helm.nameOverride c ≠ t +:+ "-") →
   Helm.name c = Helm.nameOverride c)
  ∧ (Helm.fullnameOverride c ≠ "" →
     String.length (Helm.fullnameOverride c) ≤ 63 →
     (∀ t, Helm.fullnameOverride c ≠ t +:+ "-") →
     Helm.fullname c = Helm.fullnameOverride c).
Proof.
  assert (∀ s, String.length s ≤ 63 → (∀ t, s ≠ t +:+ "-") →
            Helm.trimSuffix "-" (Helm.trunc 63 s) = s) as Hsame.
  { intros s Hlen Hdash. rewrite helm_trunc_short by done.
    destruct (helm_trimSuffix_spec "-" s) as [(t & Heq & _)|[? _]]; [|done].
    by destruct (Hdash t). }
  split.
  - intros Hset Hlen Hdash. unfold Helm.name, Helm.default.
    destruct (String.eqb_spec (Helm.nameOverride c) ""); [done|]. by apply Hsame.
  - intros Hset Hlen Hdash. unfold Helm.fullname.
    destruct (String.eqb_spec (Helm.fullnameOverride c) ""); [done|]. by apply Hsame.
Qed.

(** X22.  When no full name is forced and the release is called like the
    chart (or like its name override), the full name is the name, not the
    name twice. *)
Theorem helm_fullname_not_doubled c :
  Helm.fullnameOverride c = "" →
  Helm.ReleaseName c = Helm.default (Helm.ChartName c) (Helm.nameOverride c) →
  Helm.fullname c = Helm.name c.
Proof.
  intros Hno Hrel. unfold Helm.fullname, Helm.name.
  rewrite Hno, Hrel. simpl. by rewrite helm_contains_self.
Qed.

Lemma helm_override_as_is_witness :
  Helm.name (Helm.mkContext "local-ccm" "0.1.0" "prod" "ccm" "node-ip" true "") = "ccm"
  ∧ Helm.fullname (Helm.mkContext "local-ccm" "0.1.0" "prod" "ccm" "node-ip" true "")
    = "node-ip".
Proof.
  destruct (helm_override_as_is
              (Helm.mkContext "local-ccm" "0.1.0" "prod" "ccm" "node-ip" true ""))
    as [Hname Hfull].
  split.
  - apply Hname.
    + discriminate.
    + vm_compute. lia.
    + intros [|a1 [|a2 [|a3 [|a4 t]]]]; discriminate.
  - apply Hfull.
    + discriminate.
    + vm_compute. lia.
    + intros [|a1 [|a2 [|a3 [|a4 [|a5 [|a6 [|a7 [|a8 t]]]]]]]]; discriminate.
Defined.

Lemma helm_fullname_not_doubled_witness :
  Helm.fullname (Helm.mkContext "local-ccm" "0.1.0" "local-ccm" "" "" true "")
  = "local-ccm".
Proof.
  apply (helm_fullname_not_doubled
           (Helm.mkContext "local-ccm" "0.1.0" "local-ccm" "" "" true ""));
    reflexivity.
Defined.
